(** * The rule-based dialogue policy of moviebot

    A shallow embedding of [moviebot/dialogue_manager/dialogue_policy.py]
    (class [DialoguePolicy]) together with the properties of its dispatcher
    [next_action], its action handlers and its example aggregator.

    Modelling choices, all taken from the Python source:
    - the dialogue state is one shared mutable object: it lives in the
      [World], next to the list objects the policy allocates itself and the
      random source; list variables ([slots], [CIN_slots]) are references,
      so that an in-place [random.shuffle] through an alias of
      [agent_requestable] is visible in the snapshot;
    - a raised exception is an [inl] result; the world survives it;
    - [random] is a tape of draws consumed by [_randbelow]. *)

From Stdlib Require Import ZArith Ascii String List Permutation Lia.
From stdpp Require Import base tactics option list.
Import ListNotations.
Local Open Scope string_scope.
Local Open Scope list_scope.

(** ** Value types *)

(** [moviebot.nlu.annotation.slots.Slots] is not part of the sources at hand;
    the policy only uses the values of its members [TITLE] and [MORE_INFO],
    which are taken as parameters. *)
Class SlotNames := {
  TITLE : string;
  MORE_INFO : string
}.

(** Python values that travel through constraints, frames and item records. *)
#[warnings="-register-all"]
Inductive value :=
| VNone
| VBool (b : bool)
| VInt (n : Z)
| VStr (s : string)
| VList (l : list value).

(** Truth value testing, as [not v] uses it. *)
Definition truthy (v : value) : bool :=
  match v with
  | VNone => false
  | VBool b => b
  | VInt n => negb (n =? 0)%Z
  | VStr s => negb (s =? "")
  | VList l => match l with [] => false | _ :: _ => true end
  end.

(** [Operator]: only [EQ] is used by the policy; the other members of the
    enumeration are kept by name. *)
Inductive Operator :=
| EQ
| OtherOperator (name : string).

Inductive UserIntents :=
| U_RESTART
| U_HI
| U_ACKNOWLEDGE
| U_UNK
| U_INQUIRE
| U_ACCEPT
| OtherUserIntent (name : string).

Inductive AgentIntents :=
| RESTART
| ELICIT
| WELCOME
| CANT_HELP
| BYE
| NO_RESULTS
| COUNT_RESULTS
| RECOMMEND
| INFORM
| CONTINUE_RECOMMENDATION
| OtherAgentIntent (name : string).

(** The [intent] attribute of a dialogue act holds a member of either
    enumeration; members of different enumerations never compare equal. *)
Inductive Intent :=
| User (i : UserIntents)
| Agent (i : AgentIntents).

Definition UserIntents_eqb (a b : UserIntents) : bool :=
  match a, b with
  | U_RESTART, U_RESTART | U_HI, U_HI | U_ACKNOWLEDGE, U_ACKNOWLEDGE
  | U_UNK, U_UNK | U_INQUIRE, U_INQUIRE | U_ACCEPT, U_ACCEPT => true
  | OtherUserIntent x, OtherUserIntent y => x =? y
  | _, _ => false
  end.

Definition AgentIntents_eqb (a b : AgentIntents) : bool :=
  match a, b with
  | RESTART, RESTART | ELICIT, ELICIT | WELCOME, WELCOME
  | CANT_HELP, CANT_HELP | BYE, BYE | NO_RESULTS, NO_RESULTS
  | COUNT_RESULTS, COUNT_RESULTS | RECOMMEND, RECOMMEND | INFORM, INFORM
  | CONTINUE_RECOMMENDATION, CONTINUE_RECOMMENDATION => true
  | OtherAgentIntent x, OtherAgentIntent y => x =? y
  | _, _ => false
  end.

(** [a == b] on intents. *)
Definition Intent_eqb (a b : Intent) : bool :=
  match a, b with
  | User x, User y => UserIntents_eqb x y
  | Agent x, Agent y => AgentIntents_eqb x y
  | _, _ => false
  end.

Record ItemConstraint := mkItemConstraint {
  slot : string;
  op : Operator;
  cvalue : value
}.

Record DialogueAct := mkDialogueAct {
  intent : Intent;
  params : list ItemConstraint
}.

(** ** Dictionaries *)

(** A Python [dict] with string keys, in insertion order. *)
Definition dict (V : Type) := list (string * V).

Fixpoint dict_get {V} (d : dict V) (k : string) : option V :=
  match d with
  | [] => None
  | (k', v) :: d' => if k' =? k then Some v else dict_get d' k
  end.

Definition dict_keys {V} (d : dict V) : list string := map fst d.

Definition dict_mem {V} (d : dict V) (k : string) : bool :=
  match dict_get d k with Some _ => true | None => false end.

(** An item record of the database. *)
Definition item := dict value.

(** ** The dialogue state snapshot *)

(** The attributes of [DialogueState] that the policy reads.
    [agent_offer_state] stands for the value of
    [ast.literal_eval(dialogue_state._agent_offer_state())]: the list of the
    names of the active states, in the order in which the state object gives
    them. *)
Record DialogueState := mkDialogueState {
  last_user_dacts : list DialogueAct;
  last_agent_dacts : list DialogueAct;
  agent_requestable : list string;
  frame_CIN : dict value;
  slot_left_unasked : Z;
  database_result : list item;
  item_in_focus : option item;
  agent_req_filled : bool;
  agent_should_make_offer : bool;
  agent_offer_state : list string
}.

Definition set_agent_requestable (l : list string) (s : DialogueState)
  : DialogueState :=
  {| last_user_dacts := last_user_dacts s;
     last_agent_dacts := last_agent_dacts s;
     agent_requestable := l;
     frame_CIN := frame_CIN s;
     slot_left_unasked := slot_left_unasked s;
     database_result := database_result s;
     item_in_focus := item_in_focus s;
     agent_req_filled := agent_req_filled s;
     agent_should_make_offer := agent_should_make_offer s;
     agent_offer_state := agent_offer_state s |}.

(** The configuration of a policy instance ([self.ontology] is never read). *)
Record DialoguePolicy := mkDialoguePolicy {
  isBot : bool;
  new_user : bool
}.

(** ** Exceptions, references and the world *)

Inductive exn :=
| IndexError
| KeyError (key : string)
| TypeError
| AttributeError
| ValueError
| ApplicationError (class_name message : string).

(** A reference to a list of slot names: the snapshot's own
    [agent_requestable] list, or the [n]-th list the policy allocated. *)
Inductive ref :=
| Requestable
| Local (n : nat).

Record World := mkWorld {
  snapshot : DialogueState;
  locals : list (list string);
  rng : list nat
}.

Definition M (A : Type) : Type := World -> (exn + A) * World.

Definition ret {A} (a : A) : M A := fun w => (inr a, w).

Definition raise {A} (e : exn) : M A := fun w => (inl e, w).

Definition bind {A B} (m : M A) (k : A -> M B) : M B :=
  fun w =>
    match m w with
    | (inl e, w') => (inl e, w')
    | (inr a, w') => k a w'
    end.

Notation "x <- m ;; k" := (bind m (fun x => k))
  (at level 100, m at next level, right associativity).
Notation "m ;;; k" := (bind m (fun _ => k))
  (at level 100, right associativity).

(** [dialogue_state.<attribute>] *)
Definition read {A} (field : DialogueState -> A) : M A :=
  fun w => (inr (field (snapshot w)), w).

(** The list object a reference points to, when it exists. *)
Definition lookup_ref (r : ref) (w : World) : option (list string) :=
  match r with
  | Requestable => Some (agent_requestable (snapshot w))
  | Local n => locals w !! n
  end.

(** Reading a list variable. Every reference the policy holds comes from an
    allocation or from the snapshot, so the default is never used. *)
Definition deref (r : ref) : M (list string) :=
  fun w => (inr (default [] (lookup_ref r w)), w).

(** In-place update of the list a reference points to. *)
Definition assign (r : ref) (l : list string) : M unit :=
  fun w =>
    match r with
    | Requestable =>
        (inr tt, {| snapshot := set_agent_requestable l (snapshot w);
                    locals := locals w; rng := rng w |})
    | Local n =>
        (inr tt, {| snapshot := snapshot w;
                    locals := <[n := l]> (locals w); rng := rng w |})
    end.

(** A new list object: what a list display, a comprehension or [deepcopy]
    of a list of strings gives. *)
Definition alloc (l : list string) : M ref :=
  fun w =>
    (inr (Local (length (locals w))),
     {| snapshot := snapshot w; locals := locals w ++ [l]; rng := rng w |}).

(** [l[i]] on a list *)
Definition index {A} (l : list A) (i : nat) : M A :=
  match l !! i with
  | Some x => ret x
  | None => raise IndexError
  end.

(** [d[k]] on a dict *)
Definition subscript {V} (d : dict V) (k : string) : M V :=
  match dict_get d k with
  | Some v => ret v
  | None => raise (KeyError k)
  end.

(** [dialogue_state.item_in_focus[k]]; subscripting [None] is a [TypeError]. *)
Definition focus_subscript (k : string) : M value :=
  o <- read item_in_focus ;;
  match o with
  | Some it => subscript it k
  | None => raise TypeError
  end.

(** ** The random source *)

(** [random._randbelow(n)], for [n > 0]: the next draw of the tape, reduced
    below [n]; an exhausted tape draws 0. *)
Definition randbelow_tape (n : nat) (tape : list nat) : nat * list nat :=
  match tape with
  | [] => (0, [])
  | x :: tape' => (x mod n, tape')
  end.

Definition swap {A} (l : list A) (i j : nat) : list A :=
  match l !! i, l !! j with
  | Some x, Some y => <[i := y]> (<[j := x]> l)
  | _, _ => l
  end.

(** The loop of [random.shuffle]:
    [for i in reversed(range(1, len(x))): j = randbelow(i + 1);
     x[i], x[j] = x[j], x[i]]. *)
Fixpoint shuffle_from {A} (i : nat) (l : list A) (tape : list nat)
  : list A * list nat :=
  match i with
  | 0 => (l, tape)
  | S i' =>
      let (j, tape') := randbelow_tape (S i) tape in
      shuffle_from i' (swap l i j) tape'
  end.

Definition shuffle_list {A} (l : list A) (tape : list nat)
  : list A * list nat :=
  shuffle_from (length l - 1) l tape.

(** Runs a function of the tape in the world. *)
Definition with_rng {A} (f : list nat -> A * list nat) : M A :=
  fun w =>
    let (a, tape') := f (rng w) in
    (inr a, {| snapshot := snapshot w; locals := locals w; rng := tape' |}).

(** [random.shuffle(x)] shuffles the list object [x] in place. *)
Definition shuffle (r : ref) : M unit :=
  l <- deref r ;;
  l' <- with_rng (shuffle_list l) ;;
  assign r l'.

(** ** The policy *)

Section Policy.
Context `{SlotNames}.

Definition act (i : AgentIntents) (ps : list ItemConstraint) : DialogueAct :=
  {| intent := Agent i; params := ps |}.

(** [ItemConstraint(slot, Operator.EQ, v)] *)
Definition constraint_eq (s : string) (v : value) : ItemConstraint :=
  {| slot := s; op := EQ; cvalue := v |}.

(** [finish]: [[DialogueAct(intent=AgentIntents.BYE)]] *)
Definition finish (slots : ref) : M (list DialogueAct) :=
  ret [act BYE []].

(** [no_results]: [[DialogueAct(intent=AgentIntents.NO_RESULTS)]] *)
Definition no_results (slots : ref) : M (list DialogueAct) :=
  ret [act NO_RESULTS []].

(** The comprehension
    [[key for key in frame_CIN.keys()
      if not frame_CIN[key] and key != Slots.TITLE.value]]. *)
Definition unfilled_CIN_slots (frame : dict value) : list string :=
  List.filter
    (fun key =>
       match dict_get frame key with
       | Some v => negb (truthy v) && negb (key =? TITLE)
       | None => false
       end)
    (dict_keys frame).

(** The [for slot in slots] loop of [elicit], with its [break]. *)
Fixpoint elicit_loop (frame : dict value) (slots : list string)
  (agent_dact : DialogueAct) : M DialogueAct :=
  match slots with
  | [] => ret agent_dact
  | slot :: rest =>
      v <- subscript frame slot ;;
      if negb (truthy v)
      then ret {| intent := intent agent_dact;
                  params := params agent_dact ++ [constraint_eq slot (VStr "")] |}
      else elicit_loop frame rest agent_dact
  end.

Definition elicit (slots : ref) : M (list DialogueAct) :=
  frame <- read frame_CIN ;;
  CIN_slots <- alloc (unfilled_CIN_slots frame) ;;
  cin <- deref CIN_slots ;;
  threshold <- read slot_left_unasked ;;
  if (threshold <=? Z.of_nat (length cin))%Z then
    db <- read database_result ;;
    let agent_dacts :=
      [act COUNT_RESULTS [constraint_eq "count" (VInt (Z.of_nat (length db)))]] in
    filled <- read agent_req_filled ;;
    if filled then
      shuffle CIN_slots ;;;
      cin' <- deref CIN_slots ;;
      slot0 <- index cin' 0 ;;
      ret (agent_dacts ++ [act ELICIT [constraint_eq slot0 (VStr "")]])
    else
      shuffle slots ;;;
      l <- deref slots ;;
      agent_dact <- elicit_loop frame l (act ELICIT []) ;;
      ret (agent_dacts ++ [agent_dact])
  else ret [].

Definition recommend (slots : ref) : M (list DialogueAct) :=
  offer <- read agent_should_make_offer ;;
  focus <- (if offer then read item_in_focus
            else db <- read database_result ;;
                 first <- index db 0 ;;
                 ret (Some first)) ;;
  title <- match focus with
           | Some it => subscript it TITLE
           | None => raise TypeError
           end ;;
  ret [act RECOMMEND [constraint_eq TITLE title]].

(** The [for param in user_dact.params] loop of [inform_or_recommend];
    [acc] is [agent_dact.params]. *)
Fixpoint inform_params (ps acc : list ItemConstraint)
  : M (list ItemConstraint) :=
  match ps with
  | [] => ret acc
  | param :: rest =>
      v <- (if negb (slot param =? MORE_INFO)
            then focus_subscript (slot param)
            else focus_subscript TITLE) ;;
      inform_params rest (acc ++ [constraint_eq (slot param) v])
  end.

(** The [for user_dact in dialogue_state.last_user_dacts] loop. *)
Fixpoint inform_loop (user_dacts agent_dacts : list DialogueAct)
  : M (list DialogueAct) :=
  match user_dacts with
  | [] => ret agent_dacts
  | user_dact :: rest =>
      if Intent_eqb (intent user_dact) (User U_INQUIRE) then
        ps <- inform_params (params user_dact) [] ;;
        ps' <- (if (length ps =? 0)%nat
                then title <- focus_subscript TITLE ;;
                     ret (ps ++ [constraint_eq "deny" title])
                else ret ps) ;;
        inform_loop rest (agent_dacts ++ [act INFORM ps'])
      else if Intent_eqb (intent user_dact) (User U_ACCEPT) then
        title <- focus_subscript TITLE ;;
        inform_loop rest
          (agent_dacts ++ [act CONTINUE_RECOMMENDATION [constraint_eq TITLE title]])
      else inform_loop rest agent_dacts
  end.

Definition inform_or_recommend (slots : ref) : M (list DialogueAct) :=
  user_dacts <- read last_user_dacts ;;
  inform_loop user_dacts [].

(** [self.elicit(...) or self.recommend(...)] *)
Definition choose_elicit_or_recommend (slots : ref) : M (list DialogueAct) :=
  agent_dacts <- elicit slots ;;
  match agent_dacts with
  | [] => recommend slots
  | _ :: _ => ret agent_dacts
  end.

Definition possible_actions_per_state : dict (ref -> M (list DialogueAct)) :=
  [ ("agent_req_filled", elicit);
    ("agent_made_partial_offer", choose_elicit_or_recommend);
    ("agent_should_make_offer", recommend);
    ("agent_made_offer", inform_or_recommend);
    ("agent_offer_no_results", no_results);
    ("at_terminal_state", finish) ].

(** The [for state_name in ...] loop of [next_action] and the
    [CANT_HELP] that follows it. *)
Fixpoint dispatch (state_names : list string) (slots : ref)
  : M (list DialogueAct) :=
  match state_names with
  | [] => ret [act CANT_HELP []]
  | state_name :: rest =>
      match dict_get possible_actions_per_state state_name with
      | Some handler =>
          agent_dacts <- handler slots ;;
          match agent_dacts with
          | [] => dispatch rest slots
          | _ :: _ => ret agent_dacts
          end
      | None => dispatch rest slots
      end
  end.

(** [UserIntents.RESTART in [dact.intent for dact in last_user_dacts]] *)
Definition has_intent (i : Intent) (dacts : list DialogueAct) : bool :=
  existsb (fun dact => Intent_eqb i (intent dact)) dacts.

Definition restart_cond (restart : bool) (s : DialogueState) : bool :=
  restart || has_intent (User U_RESTART) (last_user_dacts s).

Definition start_cond (restart : bool) (s : DialogueState) : bool :=
  negb restart
  && (match last_user_dacts s with [] => true | _ :: _ => false end
      || match last_agent_dacts s with [] => true | _ :: _ => false end
      || forallb (fun dact => Intent_eqb (User U_HI) (intent dact))
                 (last_user_dacts s)).

Definition acknowledge_cond (s : DialogueState) : bool :=
  existsb (fun user_da =>
             Intent_eqb (intent user_da) (User U_ACKNOWLEDGE)
             || Intent_eqb (intent user_da) (User U_UNK))
          (last_user_dacts s)
  && existsb (fun agent_da => Intent_eqb (Agent WELCOME) (intent agent_da))
             (last_agent_dacts s).

(** [next_action(dialogue_state, dialogue_context, restart)]; the function
    never reads [dialogue_context]. *)
Definition next_action (self : DialoguePolicy) (restart : bool)
  : M (list DialogueAct) :=
  requestable <- read agent_requestable ;;
  slots <- alloc requestable ;;
  s <- read id ;;
  if restart_cond restart s then
    l <- deref slots ;;
    slot0 <- index l 0 ;;
    ret [act RESTART []; act ELICIT [constraint_eq slot0 (VStr "")]]
  else if start_cond restart s then
    ret [act WELCOME [constraint_eq "new_user" (VBool (new_user self));
                      constraint_eq "is_bot" (VBool (isBot self))]]
  else if acknowledge_cond s then
    l <- deref slots ;;
    slot0 <- index l 0 ;;
    ret [act ELICIT [constraint_eq slot0 (VStr "")]]
  else
    state_names <- read agent_offer_state ;;
    dispatch state_names slots.

End Policy.

(** ** The example aggregator *)

(** [str.isspace] on one character (code points below 256). *)
Definition is_space (c : ascii) : bool :=
  let n := nat_of_ascii c in
  (((9 <=? n) && (n <=? 13)) || ((28 <=? n) && (n <=? 32))
   || (n =? 133) || (n =? 160))%nat.

(** [s.split(",")] *)
Fixpoint split_commas (s : string) : list string :=
  match s with
  | EmptyString => [EmptyString]
  | String c s' =>
      if Ascii.eqb c "," then EmptyString :: split_commas s'
      else match split_commas s' with
           | [] => [String c EmptyString]
           | x :: xs => String c x :: xs
           end
  end.

Fixpoint lstrip (s : string) : string :=
  match s with
  | EmptyString => EmptyString
  | String c s' => if is_space c then lstrip s' else s
  end.

Fixpoint rstrip (s : string) : string :=
  match s with
  | EmptyString => EmptyString
  | String c s' =>
      match rstrip s' with
      | EmptyString => if is_space c then EmptyString else String c EmptyString
      | r => String c r
      end
  end.

(** [s.strip()] *)
Definition strip (s : string) : string := rstrip (lstrip s).

(** [len(s.split())]: the number of maximal runs of non-space characters. *)
Fixpoint count_words (in_word : bool) (s : string) : nat :=
  match s with
  | EmptyString => 0
  | String c s' =>
      if is_space c then count_words false s'
      else (if in_word then 0 else 1) + count_words true s'
  end.

(** [sep.join(l)] *)
Fixpoint join (sep : string) (l : list string) : string :=
  match l with
  | [] => EmptyString
  | [x] => x
  | x :: rest => x ++ sep ++ join sep rest
  end.

(** The f-string ['{x}'] in single quotes. *)
Definition quoted (x : string) : string := "'" ++ x ++ "'".

(** [x in l] on a list of strings *)
Definition str_in (x : string) (l : list string) : bool :=
  existsb (String.eqb x) l.

(** [list(set(l))]: the distinct members of [l], here in the order of
    their last occurrence; the order is shuffled right after. *)
Definition distinct (l : list string) : list string :=
  List.nodup string_dec l.

(** [random.sample(population, k)], selection from a pool:
    [for i in range(k): j = randbelow(n - i); result[i] = pool[j];
     pool[j] = pool[n - i - 1]]. *)
Fixpoint sample_pool (k n : nat) (pool : list string) (tape : list nat)
  : list string * list nat :=
  match k with
  | 0 => ([], tape)
  | S k' =>
      let (j, tape') := randbelow_tape n tape in
      let picked := default EmptyString (pool !! j) in
      let pool' := <[j := default EmptyString (pool !! (n - 1))]> pool in
      let (rest, tape'') := sample_pool k' (n - 1) pool' tape' in
      (picked :: rest, tape'')
  end.

Definition sample (population : list string) (k : nat) : M (list string) :=
  if (k <=? length population)%nat
  then with_rng (sample_pool k (length population) population)
  else raise ValueError.

(** The [for result in database_result] loop of [_generate_examples];
    [examples] is the list accumulated so far. *)
Fixpoint examples_loop (database_result : list item) (slot : string)
  (examples : list string) : M (list string) :=
  match database_result with
  | [] => ret examples
  | result :: rest =>
      v <- subscript result slot ;;
      match v with
      | VStr s =>
          let temp_result := map strip (split_commas s) in
          let examples' :=
            examples
            ++ map quoted
                 (List.filter (fun x => negb (str_in x examples)) temp_result) in
          if (20 <? length (distinct examples'))%nat then ret examples'
          else examples_loop rest slot examples'
      | _ => raise AttributeError
      end
  end.

(** [_generate_examples]; [None] is the value of a call that runs off the
    end of the function body. *)
Definition _generate_examples (database_result : list item) (slot : string)
  : M (option string) :=
  collected <- examples_loop database_result slot [] ;;
  match collected with
  | [] => ret None
  | _ :: _ =>
      examples <- alloc (distinct collected) ;;
      shuffle examples ;;;
      l <- deref examples ;;
      if (length l =? 1)%nat then
        first <- index l 0 ;;
        ret (Some first)
      else
        let _sub_example :=
          List.filter (fun x => (count_words false x =? 2)%nat) l in
        if (2 <=? length _sub_example)%nat then
          picked <- sample _sub_example 2 ;;
          ret (Some (join " or " picked))
        else
          picked <- sample l 2 ;;
          ret (Some (join " or " picked))
  end.

(** ** Running a computation *)

Definition result_of {A} (m : M A) (w : World) : exn + A := fst (m w).
Definition world_after {A} (m : M A) (w : World) : World := snd (m w).

(** The slot names of the deployed system. *)
Definition moviebot_slots : SlotNames :=
  {| TITLE := "title"; MORE_INFO := "more_info" |}.

(** ** Vocabulary of the properties *)

(** [extends n w w']: the snapshot has the same contents, no list object has
    disappeared, and the list at [Local n], if there is one, has at most
    been permuted. *)
Definition extends (n : nat) (w w' : World) : Prop :=
  snapshot w' = snapshot w
  /\ length (locals w) <= length (locals w')
  /\ forall l, locals w !! n = Some l ->
       exists l', locals w' !! n = Some l' /\ l' ≡ₚ l.

(** [m] keeps the world within [extends n], whatever its outcome. *)
Definition stable {A} (n : nat) (m : M A) : Prop :=
  forall w, extends n w (m w).2.

(** The world in which a caller holding the snapshot [s] calls the policy. *)
Definition world_of (s : DialogueState) (tape : list nat) : World :=
  {| snapshot := s; locals := []; rng := tape |}.

Section Preconditions.
Context `{SlotNames}.

(** [len(CIN_slots) >= dialogue_state.slot_left_unasked] *)
Definition threshold_met (s : DialogueState) : bool :=
  (slot_left_unasked s
   <=? Z.of_nat (length (unfilled_CIN_slots (frame_CIN s))))%Z.

(** Every slot the agent may request is a key of the frame. *)
Definition requestable_in_frame (s : DialogueState) : bool :=
  forallb (dict_mem (frame_CIN s)) (agent_requestable s).

(** No slot the agent may request has an unfilled entry in the frame. *)
Definition no_requestable_unfilled (s : DialogueState) : bool :=
  forallb (fun slot =>
             match dict_get (frame_CIN s) slot with
             | Some v => truthy v
             | None => true
             end)
          (agent_requestable s).

(** The lookups of [elicit] succeed: the handler declines, or it has a slot
    to pick ([agent_req_filled]), or it only meets keys of the frame. *)
Definition elicit_pre (s : DialogueState) : bool :=
  negb (threshold_met s)
  || (if agent_req_filled s
      then match unfilled_CIN_slots (frame_CIN s) with
           | [] => false
           | _ :: _ => true
           end
      else requestable_in_frame s).

(** The lookups of [recommend] succeed: the item it selects exists and has
    a title. *)
Definition recommend_pre (s : DialogueState) : bool :=
  if agent_should_make_offer s
  then match item_in_focus s with
       | Some it => dict_mem it TITLE
       | None => false
       end
  else match database_result s with
       | it :: _ => dict_mem it TITLE
       | [] => false
       end.

(** The requested slot is the generic more-info slot or a key of the item
    in focus. *)
Definition resolvable (focus : item) (param : ItemConstraint) : bool :=
  (slot param =? MORE_INFO) || dict_mem focus (slot param).

(** The lookups of [inform_or_recommend] succeed: an item with a title is
    in focus and it has every slot the user inquires about. *)
Definition inform_pre (s : DialogueState) : bool :=
  match item_in_focus s with
  | Some it =>
      dict_mem it TITLE
      && forallb
           (fun user_dact =>
              negb (Intent_eqb (intent user_dact) (User U_INQUIRE))
              || forallb (resolvable it) (params user_dact))
           (last_user_dacts s)
  | None => false
  end.

(** What the handler of an active state needs. *)
Definition handler_pre (state_name : string) (s : DialogueState) : bool :=
  if state_name =? "agent_req_filled" then elicit_pre s
  else if state_name =? "agent_made_partial_offer"
       then elicit_pre s && (threshold_met s || recommend_pre s)
  else if state_name =? "agent_should_make_offer" then recommend_pre s
  else if state_name =? "agent_made_offer" then inform_pre s
  else true.

(** A well-formed snapshot: there is a slot to elicit, and the lookups of
    the handlers of its active states succeed. *)
Definition well_formed (s : DialogueState) : bool :=
  match agent_requestable s with [] => false | _ :: _ => true end
  && forallb (fun state_name => handler_pre state_name s)
             (agent_offer_state s).

(** One of the three branches that [next_action] takes before it consults
    the table of handlers. *)
Definition pre_dispatch (restart : bool) (s : DialogueState) : bool :=
  restart_cond restart s || start_cond restart s || acknowledge_cond s.

(** The constraint that answers one resolvable request: the item's value
    for the slot, or the title for the more-info slot. *)
Definition answer (focus : item) (title : value) (param : ItemConstraint)
  : ItemConstraint :=
  constraint_eq (slot param)
    (if slot param =? MORE_INFO then title
     else default VNone (dict_get focus (slot param))).

(** The answer of [inform_or_recommend] to one user act, as the design
    describes it, for the item [focus] titled [title]. *)
Definition informed (focus : item) (title : value) (user_dact : DialogueAct)
  : list DialogueAct :=
  if Intent_eqb (intent user_dact) (User U_INQUIRE) then
    [act INFORM
       match params user_dact with
       | [] => [constraint_eq "deny" title]
       | ps => map (answer focus title) ps
       end]
  else if Intent_eqb (intent user_dact) (User U_ACCEPT) then
    [act CONTINUE_RECOMMENDATION [constraint_eq TITLE title]]
  else [].

End Preconditions.

(** An error of a class of the application that reports an inconsistent
    dialogue state, as opposed to the built-in lookup errors. *)
Definition state_inconsistency_error (e : exn) : Prop :=
  match e with
  | ApplicationError _ _ => True
  | _ => False
  end.

(** ** Vocabulary of the dispatcher *)

(** The world once [next_action] has made its copy of the requestable
    slots. *)
Definition with_copy (w : World) : World :=
  {| snapshot := snapshot w;
     locals := locals w ++ [agent_requestable (snapshot w)];
     rng := rng w |}.

(** [slots[0]] on the copy. *)
Definition first_slot (s : DialogueState) : exn + string :=
  match agent_requestable s with
  | [] => inl IndexError
  | slot :: _ => inr slot
  end.


(** The count act that [elicit] builds first. *)
Definition count_results (s : DialogueState) : DialogueAct :=
  act COUNT_RESULTS
    [constraint_eq "count" (VInt (Z.of_nat (length (database_result s))))].


(** Results whose comma-separated fragments are all [fragment] once
    stripped. *)
Definition only_fragment (database_result : list item) (slot fragment : string)
  : Prop :=
  forall result, In result database_result ->
    exists s, dict_get result slot = Some (VStr s)
              /\ forall x, In x (split_commas s) -> strip x = fragment.

(** The private list at [Local n] still holds the requestable slots, in
    some order. *)
Definition holds_requestable (n : nat) (w : World) : Prop :=
  exists l, locals w !! n = Some l /\ l ≡ₚ agent_requestable (snapshot w).

(** ** Sample snapshots *)

Definition user_act (i : UserIntents) (ps : list ItemConstraint) : DialogueAct :=
  {| intent := User i; params := ps |}.

Definition heat : item :=
  [("title", VStr "Heat"); ("genres", VStr "Crime, Drama"); ("year", VInt 1995)].

Definition ran : item :=
  [("title", VStr "Ran"); ("genres", VStr "Drama"); ("year", VInt 1985)].

(** A snapshot in the middle of a conversation: the user has revealed a
    genre, two slots of the frame are still open. *)
Definition mid_conversation : DialogueState :=
  {| last_user_dacts :=
       [user_act (OtherUserIntent "REVEAL")
          [{| slot := "genres"; op := EQ; cvalue := VStr "drama" |}]];
     last_agent_dacts :=
       [{| intent := Agent ELICIT;
           params := [{| slot := "genres"; op := EQ; cvalue := VStr "" |}] |}];
     agent_requestable := ["genres"; "keywords"];
     frame_CIN :=
       [("title", VNone); ("genres", VStr "drama");
        ("keywords", VNone); ("year", VNone)];
     slot_left_unasked := 2;
     database_result := [heat; ran];
     item_in_focus := None;
     agent_req_filled := false;
     agent_should_make_offer := false;
     agent_offer_state := ["agent_req_filled"] |}.

(** Every requestable slot has been filled, one other slot of the frame is
    still open. *)
Definition all_requested : DialogueState :=
  {| last_user_dacts :=
       [user_act (OtherUserIntent "REVEAL")
          [{| slot := "keywords"; op := EQ; cvalue := VStr "war" |}]];
     last_agent_dacts :=
       [{| intent := Agent ELICIT;
           params := [{| slot := "keywords"; op := EQ; cvalue := VStr "" |}] |}];
     agent_requestable := ["genres"; "keywords"];
     frame_CIN :=
       [("title", VNone); ("genres", VStr "drama");
        ("keywords", VStr "war"); ("year", VNone)];
     slot_left_unasked := 1;
     database_result := [heat; ran];
     item_in_focus := None;
     agent_req_filled := false;
     agent_should_make_offer := false;
     agent_offer_state := ["agent_req_filled"] |}.

(** The agent may ask for keywords, but the frame has no such key. *)
Definition missing_keywords : DialogueState :=
  {| last_user_dacts :=
       [user_act (OtherUserIntent "REVEAL")
          [{| slot := "genres"; op := EQ; cvalue := VStr "drama" |}]];
     last_agent_dacts :=
       [{| intent := Agent ELICIT;
           params := [{| slot := "genres"; op := EQ; cvalue := VStr "" |}] |}];
     agent_requestable := ["keywords"];
     frame_CIN := [("genres", VStr "drama"); ("year", VNone); ("actors", VNone)];
     slot_left_unasked := 1;
     database_result := [heat; ran];
     item_in_focus := None;
     agent_req_filled := false;
     agent_should_make_offer := false;
     agent_offer_state := ["agent_req_filled"] |}.

(** The agent has asked enough; two slots of the frame are still open. *)
Definition enough_filled : DialogueState :=
  {| last_user_dacts :=
       [user_act (OtherUserIntent "REVEAL")
          [{| slot := "genres"; op := EQ; cvalue := VStr "drama" |}]];
     last_agent_dacts :=
       [{| intent := Agent ELICIT;
           params := [{| slot := "genres"; op := EQ; cvalue := VStr "" |}] |}];
     agent_requestable := ["genres"; "keywords"];
     frame_CIN :=
       [("title", VNone); ("genres", VStr "drama");
        ("keywords", VNone); ("year", VNone)];
     slot_left_unasked := 2;
     database_result := [heat; ran];
     item_in_focus := None;
     agent_req_filled := true;
     agent_should_make_offer := false;
     agent_offer_state := ["agent_req_filled"] |}.

(** Too few open slots for [elicit], and a state name the table does not
    know. *)
Definition nothing_to_ask : DialogueState :=
  {| last_user_dacts :=
       [user_act (OtherUserIntent "REVEAL")
          [{| slot := "genres"; op := EQ; cvalue := VStr "drama" |}]];
     last_agent_dacts :=
       [{| intent := Agent ELICIT;
           params := [{| slot := "genres"; op := EQ; cvalue := VStr "" |}] |}];
     agent_requestable := ["genres"; "keywords"];
     frame_CIN :=
       [("title", VNone); ("genres", VStr "drama");
        ("keywords", VNone); ("year", VNone)];
     slot_left_unasked := 3;
     database_result := [heat; ran];
     item_in_focus := None;
     agent_req_filled := false;
     agent_should_make_offer := false;
     agent_offer_state := ["agent_req_filled"; "agent_can_lookup"] |}.

(** The user has only said hello. *)
Definition greeting : DialogueState :=
  {| last_user_dacts := [user_act U_HI []];
     last_agent_dacts := [];
     agent_requestable := ["genres"; "keywords"];
     frame_CIN :=
       [("title", VNone); ("genres", VNone);
        ("keywords", VNone); ("year", VNone)];
     slot_left_unasked := 2;
     database_result := [];
     item_in_focus := None;
     agent_req_filled := false;
     agent_should_make_offer := false;
     agent_offer_state := [] |}.

(** An offer has been made; the user asks about it and accepts. *)
Definition asked_about_heat : DialogueState :=
  {| last_user_dacts :=
       [user_act U_INQUIRE
          [{| slot := "genres"; op := EQ; cvalue := VStr "" |};
           {| slot := "more_info"; op := EQ; cvalue := VStr "" |}];
        user_act U_INQUIRE [];
        user_act U_ACCEPT []];
     last_agent_dacts :=
       [{| intent := Agent RECOMMEND;
           params := [{| slot := "title"; op := EQ; cvalue := VStr "Heat" |}] |}];
     agent_requestable := ["genres"; "keywords"];
     frame_CIN :=
       [("title", VNone); ("genres", VStr "drama");
        ("keywords", VNone); ("year", VNone)];
     slot_left_unasked := 2;
     database_result := [heat; ran];
     item_in_focus := Some heat;
     agent_req_filled := true;
     agent_should_make_offer := false;
     agent_offer_state := ["agent_made_offer"] |}.

(** The user asks for a slot that the item in focus does not have. *)
Definition asked_about_director : DialogueState :=
  {| last_user_dacts :=
       [user_act U_INQUIRE
          [{| slot := "director"; op := EQ; cvalue := VStr "" |}]];
     last_agent_dacts :=
       [{| intent := Agent RECOMMEND;
           params := [{| slot := "title"; op := EQ; cvalue := VStr "Heat" |}] |}];
     agent_requestable := ["genres"; "keywords"];
     frame_CIN :=
       [("title", VNone); ("genres", VStr "drama");
        ("keywords", VNone); ("year", VNone)];
     slot_left_unasked := 2;
     database_result := [heat; ran];
     item_in_focus := Some heat;
     agent_req_filled := true;
     agent_should_make_offer := false;
     agent_offer_state := ["agent_made_offer"] |}.

(** The agent should make an offer and has an item in focus. *)
Definition offer_heat : DialogueState :=
  {| last_user_dacts :=
       [user_act (OtherUserIntent "REVEAL")
          [{| slot := "genres"; op := EQ; cvalue := VStr "crime" |}]];
     last_agent_dacts :=
       [{| intent := Agent ELICIT;
           params := [{| slot := "genres"; op := EQ; cvalue := VStr "" |}] |}];
     agent_requestable := ["genres"; "keywords"];
     frame_CIN :=
       [("title", VNone); ("genres", VStr "crime");
        ("keywords", VStr "heist"); ("year", VNone)];
     slot_left_unasked := 2;
     database_result := [ran; heat];
     item_in_focus := Some heat;
     agent_req_filled := true;
     agent_should_make_offer := true;
     agent_offer_state := ["agent_should_make_offer"] |}.

(** A partial offer is pending and the database has results. *)
Definition partial_offer : DialogueState :=
  {| last_user_dacts :=
       [user_act (OtherUserIntent "REVEAL")
          [{| slot := "genres"; op := EQ; cvalue := VStr "drama" |}]];
     last_agent_dacts :=
       [{| intent := Agent COUNT_RESULTS;
           params := [{| slot := "count"; op := EQ; cvalue := VInt 2 |}] |}];
     agent_requestable := ["genres"; "keywords"];
     frame_CIN :=
       [("title", VNone); ("genres", VStr "drama");
        ("keywords", VStr "war"); ("year", VStr "1985")];
     slot_left_unasked := 1;
     database_result := [ran; heat];
     item_in_focus := None;
     agent_req_filled := true;
     agent_should_make_offer := false;
     agent_offer_state := ["agent_made_partial_offer"] |}.

(** The same state once the database has nothing left to offer. *)
Definition partial_offer_no_results : DialogueState :=
  {| last_user_dacts := last_user_dacts partial_offer;
     last_agent_dacts := last_agent_dacts partial_offer;
     agent_requestable := agent_requestable partial_offer;
     frame_CIN := frame_CIN partial_offer;
     slot_left_unasked := slot_left_unasked partial_offer;
     database_result := [];
     item_in_focus := None;
     agent_req_filled := true;
     agent_should_make_offer := false;
     agent_offer_state := ["agent_made_partial_offer"] |}.

(** Nothing is left to ask and nothing has to be left unasked. *)
Definition nothing_open : DialogueState :=
  {| last_user_dacts := last_user_dacts partial_offer;
     last_agent_dacts := last_agent_dacts partial_offer;
     agent_requestable := agent_requestable partial_offer;
     frame_CIN := frame_CIN partial_offer;
     slot_left_unasked := 0;
     database_result := [ran; heat];
     item_in_focus := None;
     agent_req_filled := true;
     agent_should_make_offer := false;
     agent_offer_state := ["agent_req_filled"] |}.

(** The world in which a handler runs on the snapshot [s]: the dispatcher
    has made its copy of the requestable slots, at [Local 0]. *)
Definition handler_world (s : DialogueState) (tape : list nat) : World :=
  with_copy (world_of s tape).

Definition policy : DialoguePolicy := {| isBot := true; new_user := false |}.

(** Database results with one genre only. *)
Definition dramas : list item :=
  [[("title", VStr "Ikiru"); ("genres", VStr " Drama ,Drama")]; ran].

(** [m] only reads the snapshot: it leaves the world as it is, and its
    outcome is the same in any two worlds with the same snapshot. *)
Definition reads_only {A} (m : M A) : Prop :=
  forall w w0, snapshot w = snapshot w0 -> m w = ((m w0).1, w).

(** [s'] is [s] with the requestable slots in another order at most. *)
Definition reordered (s s' : DialogueState) : Prop :=
  s' = set_agent_requestable (agent_requestable s') s
  /\ agent_requestable s' ≡ₚ agent_requestable s.

(** [m] changes at most the order of the requestable slots. *)
Definition reorders_only {A} (m : M A) : Prop :=
  forall w, reordered (snapshot w) (snapshot (m w).2).

(** [x] is a fragment of the slot's value in some result, stripped and
    quoted. *)
Definition example_of (database_result : list item) (slot x : string) : Prop :=
  exists result v y,
    In result database_result
    /\ dict_get result slot = Some (VStr v)
    /\ In y (split_commas v)
    /\ x = quoted (strip y).

(** [[x for x in examples if len(x.split()) == 2]] *)
Definition two_words (examples : list string) : list string :=
  List.filter (fun x => (count_words false x =? 2)%nat) examples.

(** ** More sample snapshots *)

(** A snapshot that differs from [mid_conversation] in the acts of the last
    turn, the item in focus, the database results, the offer flag and the
    active states. *)
Definition snapshot_with (user_dacts agent_dacts : list DialogueAct)
  (focus : option item) (results : list item) (offer : bool)
  (state_names : list string) : DialogueState :=
  {| last_user_dacts := user_dacts;
     last_agent_dacts := agent_dacts;
     agent_requestable := agent_requestable mid_conversation;
     frame_CIN := frame_CIN mid_conversation;
     slot_left_unasked := slot_left_unasked mid_conversation;
     database_result := results;
     item_in_focus := focus;
     agent_req_filled := agent_req_filled mid_conversation;
     agent_should_make_offer := offer;
     agent_offer_state := state_names |}.

Definition welcome_act : DialogueAct :=
  act WELCOME [constraint_eq "new_user" (VBool false);
               constraint_eq "is_bot" (VBool true)].

(** The user acknowledges the welcome. *)
Definition acknowledged : DialogueState :=
  snapshot_with [user_act U_ACKNOWLEDGE []] [welcome_act] None [] false [].

(** The same, for an agent that has no slot to ask for. *)
Definition acknowledged_no_slots : DialogueState :=
  set_agent_requestable [] acknowledged.

Definition reveal_genre : DialogueAct :=
  user_act (OtherUserIntent "REVEAL")
    [{| slot := "genres"; op := EQ; cvalue := VStr "drama" |}].

Definition elicit_genre : DialogueAct :=
  act ELICIT [constraint_eq "genres" (VStr "")].

(** The conversation is over. *)
Definition terminal : DialogueState :=
  snapshot_with [reveal_genre] [elicit_genre] None [heat]
    false ["agent_can_lookup"; "at_terminal_state"; "agent_req_filled"].

(** The database has nothing for the user. *)
Definition no_results_found : DialogueState :=
  snapshot_with [reveal_genre] [elicit_genre] None []
    false ["agent_offer_no_results"; "agent_req_filled"].

(** The user asks about an item, but none is in focus. *)
Definition inquiry_without_focus : DialogueState :=
  snapshot_with [reveal_genre; user_act U_INQUIRE []] [elicit_genre] None [heat]
    false ["agent_made_offer"].

(** An offer is due, but no item is in focus. *)
Definition offer_without_focus : DialogueState :=
  snapshot_with [reveal_genre] [elicit_genre] None [heat]
    true ["agent_should_make_offer"].

(** An item without a title. *)
Definition untitled : item := [("genres", VStr "Drama"); ("year", VInt 1952)].

Definition offer_untitled : DialogueState :=
  snapshot_with [reveal_genre] [elicit_genre] (Some untitled) [heat]
    true ["agent_should_make_offer"].

Definition results_untitled : DialogueState :=
  snapshot_with [reveal_genre] [elicit_genre] None [untitled; heat]
    false ["agent_made_partial_offer"].

(** A result with twenty-one genres. *)
Definition many_genres : item :=
  [("title", VStr "Anthology");
   ("genres", VStr "g01,g02,g03,g04,g05,g06,g07,g08,g09,g10,g11,g12,g13,g14,g15,g16,g17,g18,g19,g20,g21")].

(** A request for a slot that the item [heat] lacks, after an act that
    the handler ignores. *)
Definition revealed_then_asked_director : DialogueState :=
  snapshot_with
    [reveal_genre;
     user_act U_INQUIRE [{| slot := "director"; op := EQ; cvalue := VStr "" |}]]
    [elicit_genre] (Some heat) [heat; ran] false ["agent_made_offer"].

Section Declining.
Context `{SlotNames}.

(** [declined_all state_names slots w w']: the dispatcher goes through
    [state_names] from the world [w] without an answer and reaches [w']:
    each name is unknown to the table, or its handler returns no act. *)
Inductive declined_all : list string -> ref -> World -> World -> Prop :=
| declined_nil slots w :
    declined_all [] slots w w
| declined_unknown state_name rest slots w w' :
    dict_get possible_actions_per_state state_name = None ->
    declined_all rest slots w w' ->
    declined_all (state_name :: rest) slots w w'
| declined_known state_name handler rest slots w w1 w' :
    dict_get possible_actions_per_state state_name = Some handler ->
    handler slots w = (inr [], w1) ->
    declined_all rest slots w1 w' ->
    declined_all (state_name :: rest) slots w w'.

End Declining.

(** * Properties *)

(** ** The random source only permutes *)

Lemma swap_Permutation {A} (l : list A) i j : swap l i j ≡ₚ l.
Proof.
  unfold swap.
  destruct (l !! i) as [x|] eqn:Hi; [|done].
  destruct (l !! j) as [y|] eqn:Hj; [|done].
  by apply Permutation_insert_swap.
Qed.

Lemma shuffle_from_Permutation {A} i (l : list A) tape :
  (shuffle_from i l tape).1 ≡ₚ l.
Proof.
  revert l tape. induction i as [|i IH]; intros l tape; [done|].
  cbn [shuffle_from].
  destruct (randbelow_tape (S (S i)) tape) as [j tape'].
  rewrite IH. apply swap_Permutation.
Qed.

Lemma shuffle_list_Permutation {A} (l : list A) tape :
  (shuffle_list l tape).1 ≡ₚ l.
Proof. apply shuffle_from_Permutation. Qed.

(** ** What a computation leaves alone *)

Lemma extends_refl n w : extends n w w.
Proof. repeat split; eauto. Qed.

Lemma extends_trans n w1 w2 w3 :
  extends n w1 w2 -> extends n w2 w3 -> extends n w1 w3.
Proof.
  intros (Hs1 & Hl1 & Hp1) (Hs2 & Hl2 & Hp2). repeat split.
  - congruence.
  - lia.
  - intros l Hl. destruct (Hp1 l Hl) as (l1 & Hl1' & Hperm1).
    destruct (Hp2 l1 Hl1') as (l2 & Hl2' & Hperm2).
    exists l2. split; [done|]. by rewrite Hperm2.
Qed.

Lemma stable_ret {A} n (a : A) : stable n (ret a).
Proof. intros w. apply extends_refl. Qed.

Lemma stable_raise {A} n e : stable n (@raise A e).
Proof. intros w. apply extends_refl. Qed.

Lemma stable_bind {A B} n (m : M A) (k : A -> M B) :
  stable n m -> (forall a, stable n (k a)) -> stable n (bind m k).
Proof.
  intros Hm Hk w. unfold bind. specialize (Hm w).
  destruct (m w) as [[e|a] w']; [done|].
  eapply extends_trans; [exact Hm|apply Hk].
Qed.

Lemma stable_read {A} n (field : DialogueState -> A) : stable n (read field).
Proof. intros w. apply extends_refl. Qed.

Lemma stable_deref n r : stable n (deref r).
Proof. intros w. apply extends_refl. Qed.

Lemma stable_index {A} n (l : list A) i : stable n (index l i).
Proof. unfold index. destruct (l !! i); [apply stable_ret|apply stable_raise]. Qed.

Lemma stable_subscript {V} n (d : dict V) k : stable n (subscript d k).
Proof.
  unfold subscript. destruct (dict_get d k); [apply stable_ret|apply stable_raise].
Qed.

Lemma stable_alloc n l : stable n (alloc l).
Proof.
  intros w. repeat split; cbn.
  - rewrite length_app. lia.
  - intros l0 Hl0. exists l0. split; [|done]. by apply lookup_app_l_Some.
Qed.

Lemma stable_with_rng {A} n (f : list nat -> A * list nat) :
  stable n (with_rng f).
Proof.
  intros w. unfold with_rng. destruct (f (rng w)). repeat split; cbn; eauto.
Qed.

(** Shuffling a list the policy allocated itself: the one place where a
    list object changes. *)
Lemma stable_shuffle_Local n m : stable n (shuffle (Local m)).
Proof.
  intros w. unfold shuffle, bind, deref, with_rng, assign, lookup_ref. cbn.
  pose proof (shuffle_list_Permutation (default [] (locals w !! m)) (rng w)) as Hp.
  destruct (shuffle_list (default [] (locals w !! m)) (rng w)) as [l' tape'].
  cbn in *. repeat split; cbn.
  - by rewrite length_insert.
  - intros l Hl. destruct (decide (m = n)) as [->|Hne].
    + rewrite Hl in Hp. cbn in Hp. exists l'. split; [|done].
      apply list_lookup_insert_eq. by eapply lookup_lt_Some.
    + exists l. split; [|done]. by rewrite list_lookup_insert_ne.
Qed.

Lemma stable_alloc_bind {B} n l (k : ref -> M B) :
  (forall m, stable n (k (Local m))) -> stable n (bind (alloc l) k).
Proof.
  intros Hk w. unfold bind.
  pose proof (stable_alloc n l w) as Ha. unfold alloc in *. cbn in *.
  eapply extends_trans; [exact Ha|apply Hk].
Qed.

Ltac stable_step :=
  match goal with
  | |- stable _ (ret _) => apply stable_ret
  | |- stable _ (raise _) => apply stable_raise
  | |- stable _ (read _) => apply stable_read
  | |- stable _ (deref _) => apply stable_deref
  | |- stable _ (index _ _) => apply stable_index
  | |- stable _ (subscript _ _) => apply stable_subscript
  | |- stable _ (with_rng _) => apply stable_with_rng
  | |- stable _ (shuffle (Local _)) => apply stable_shuffle_Local
  | |- stable _ (bind (alloc _) _) => apply stable_alloc_bind; intros ?
  | |- stable _ (bind _ _) => apply stable_bind; [|intros ?]
  | |- stable _ (if ?b then _ else _) => destruct b
  | |- stable _ (match ?x with _ => _ end) => destruct x
  end.

Ltac stable_tac := repeat stable_step; eauto.

Section PolicyFrame.
Context `{SlotNames}.

Lemma stable_focus_subscript n k : stable n (focus_subscript k).
Proof. unfold focus_subscript. stable_tac. Qed.

Lemma stable_elicit_loop n frame slots agent_dact :
  stable n (elicit_loop frame slots agent_dact).
Proof.
  revert agent_dact. induction slots as [|slot rest IH]; intros agent_dact;
    cbn [elicit_loop]; stable_tac.
Qed.

Lemma stable_elicit n m : stable n (elicit (Local m)).
Proof. unfold elicit. stable_tac. apply stable_elicit_loop. Qed.

Lemma stable_recommend n slots : stable n (recommend slots).
Proof. unfold recommend. stable_tac. Qed.

Lemma stable_inform_params n ps acc : stable n (inform_params ps acc).
Proof.
  revert acc. induction ps as [|param rest IH]; intros acc;
    cbn [inform_params]; stable_tac; apply stable_focus_subscript.
Qed.

Lemma stable_inform_loop n user_dacts agent_dacts :
  stable n (inform_loop user_dacts agent_dacts).
Proof.
  revert agent_dacts. induction user_dacts as [|user_dact rest IH];
    intros agent_dacts; cbn [inform_loop]; stable_tac;
    first [apply stable_inform_params | apply stable_focus_subscript].
Qed.

Lemma stable_inform_or_recommend n slots : stable n (inform_or_recommend slots).
Proof. unfold inform_or_recommend. stable_tac. apply stable_inform_loop. Qed.

Lemma stable_choose_elicit_or_recommend n m :
  stable n (choose_elicit_or_recommend (Local m)).
Proof.
  unfold choose_elicit_or_recommend. stable_tac;
    first [apply stable_elicit | apply stable_recommend].
Qed.

(** The handlers of the table, by name. *)
Lemma handler_cases state_name handler :
  dict_get possible_actions_per_state state_name = Some handler ->
  handler = elicit \/ handler = choose_elicit_or_recommend
  \/ handler = recommend \/ handler = inform_or_recommend
  \/ handler = no_results \/ handler = finish.
Proof.
  unfold possible_actions_per_state. cbn [dict_get].
  repeat (case_match; [intros [= <-]; tauto|]). discriminate.
Qed.

Lemma stable_handler n m state_name handler :
  dict_get possible_actions_per_state state_name = Some handler ->
  stable n (handler (Local m)).
Proof.
  intros Hh. apply handler_cases in Hh.
  destruct Hh as [->|[->|[->|[->|[->| ->]]]]].
  - apply stable_elicit.
  - apply stable_choose_elicit_or_recommend.
  - apply stable_recommend.
  - apply stable_inform_or_recommend.
  - apply stable_ret.
  - apply stable_ret.
Qed.

Lemma stable_dispatch n m state_names :
  stable n (dispatch state_names (Local m)).
Proof.
  induction state_names as [|state_name rest IH]; cbn [dispatch].
  - apply stable_ret.
  - destruct (dict_get possible_actions_per_state state_name) as [handler|] eqn:Hh;
      [|done].
    apply stable_bind; [by eapply stable_handler|].
    intros [|a acts]; [done|apply stable_ret].
Qed.

Lemma stable_next_action n self restart : stable n (next_action self restart).
Proof. unfold next_action. stable_tac. apply stable_dispatch. Qed.


(** ** The branches of [next_action] before the table *)


Lemma lookup_copy w :
  lookup_ref (Local (length (locals w))) (with_copy w)
  = Some (agent_requestable (snapshot w)).
Proof. cbn. apply list_lookup_middle. done. Qed.

Lemma next_action_eq self restart w :
  next_action self restart w =
  let s := snapshot w in
  if restart_cond restart s then
    (match first_slot s with
     | inr slot =>
         inr [act RESTART []; act ELICIT [constraint_eq slot (VStr "")]]
     | inl e => inl e
     end, with_copy w)
  else if start_cond restart s then
    (inr [act WELCOME [constraint_eq "new_user" (VBool (new_user self));
                       constraint_eq "is_bot" (VBool (isBot self))]],
     with_copy w)
  else if acknowledge_cond s then
    (match first_slot s with
     | inr slot => inr [act ELICIT [constraint_eq slot (VStr "")]]
     | inl e => inl e
     end, with_copy w)
  else dispatch (agent_offer_state s) (Local (length (locals w))) (with_copy w).
Proof.
  unfold next_action, bind, read, alloc, deref. cbn -[lookup_ref].
  fold (with_copy w). unfold first_slot, index.
  destruct (restart_cond restart (snapshot w)).
  { rewrite lookup_copy. by destruct (agent_requestable (snapshot w)). }
  destruct (start_cond restart (snapshot w)); [done|].
  destruct (acknowledge_cond (snapshot w)); [|done].
  rewrite lookup_copy. by destruct (agent_requestable (snapshot w)).
Qed.

Lemma UserIntents_eqb_eq a b : UserIntents_eqb a b = true <-> a = b.
Proof.
  destruct a, b; cbn; try (split; [discriminate|congruence]); try done.
  rewrite String.eqb_eq. split; congruence.
Qed.

Lemma AgentIntents_eqb_eq a b : AgentIntents_eqb a b = true <-> a = b.
Proof.
  destruct a, b; cbn; try (split; [discriminate|congruence]); try done.
  rewrite String.eqb_eq. split; congruence.
Qed.

Lemma Intent_eqb_eq a b : Intent_eqb a b = true <-> a = b.
Proof.
  destruct a as [x|x], b as [y|y]; cbn.
  - rewrite UserIntents_eqb_eq. split; congruence.
  - split; [discriminate|congruence].
  - split; [discriminate|congruence].
  - rewrite AgentIntents_eqb_eq. split; congruence.
Qed.

Lemma has_intent_true i dacts :
  has_intent i dacts = true <-> exists dact, In dact dacts /\ intent dact = i.
Proof.
  unfold has_intent. rewrite existsb_exists. split.
  - intros (dact & Hin & Heq). apply Intent_eqb_eq in Heq. eauto.
  - intros (dact & Hin & Heq). exists dact. split; [done|].
    apply Intent_eqb_eq. done.
Qed.

Lemma has_intent_false i dacts :
  has_intent i dacts = false <-> forall dact, In dact dacts -> intent dact <> i.
Proof.
  rewrite <- not_true_iff_false, has_intent_true. split.
  - intros Hno dact Hin Heq. apply Hno. eauto.
  - intros Hall (dact & Hin & Heq). by apply (Hall dact).
Qed.

(** C4. Whenever there is a slot to elicit, a restart (asked by the caller
    or by a RESTART act of the user) is answered by exactly
    [RESTART, ELICIT(slot0 = "")], where [slot0] is the first entry of
    [agent_requestable]; no other field of the snapshot, nor the random
    source, has a say. *)
Theorem next_action_restart self restart w slot0 rest :
  agent_requestable (snapshot w) = slot0 :: rest ->
  restart = true
  \/ (exists dact,
        In dact (last_user_dacts (snapshot w)) /\ intent dact = User U_RESTART) ->
  result_of (next_action self restart) w
  = inr [act RESTART []; act ELICIT [constraint_eq slot0 (VStr "")]].
Proof.
  intros Hslots Hcond. unfold result_of. rewrite next_action_eq. cbn zeta.
  assert (restart_cond restart (snapshot w) = true) as ->.
  { unfold restart_cond. destruct Hcond as [->|Hex]; [done|].
    apply orb_true_iff. right. by apply has_intent_true. }
  cbn. unfold first_slot. by rewrite Hslots.
Qed.

(** C8. Without a restart, a conversation that has not started yet (no
    user act, or no agent act, or only greetings from the user) is answered
    by exactly one WELCOME act that carries the [new_user] and [is_bot]
    flags of the policy instance. *)
Theorem next_action_welcome self w :
  (forall dact,
     In dact (last_user_dacts (snapshot w)) -> intent dact <> User U_RESTART) ->
  last_user_dacts (snapshot w) = []
  \/ last_agent_dacts (snapshot w) = []
  \/ (forall dact,
        In dact (last_user_dacts (snapshot w)) -> intent dact = User U_HI) ->
  result_of (next_action self false) w
  = inr [act WELCOME [constraint_eq "new_user" (VBool (new_user self));
                      constraint_eq "is_bot" (VBool (isBot self))]].
Proof.
  intros Hno Hstart. unfold result_of. rewrite next_action_eq. cbn zeta.
  assert (restart_cond false (snapshot w) = false) as ->.
  { unfold restart_cond. cbn. by apply has_intent_false. }
  assert (start_cond false (snapshot w) = true) as ->; [|done].
  unfold start_cond. cbn.
  destruct Hstart as [-> | [-> | Hhi]]; [done|by rewrite orb_true_r|].
  apply orb_true_iff. right. apply forallb_forall. intros dact Hin.
  by rewrite (Hhi dact Hin).
Qed.

(** C10. On the three branches taken before the table of handlers
    (restart, conversation start, acknowledgement after the welcome) the
    answer is a function of the snapshot, the restart flag and the
    configuration alone: two worlds that agree on the snapshot get the same
    outcome, and the random source is left as it was. *)
Theorem next_action_pre_dispatch_deterministic self restart w1 w2 :
  snapshot w1 = snapshot w2 ->
  pre_dispatch restart (snapshot w1) = true ->
  result_of (next_action self restart) w1
  = result_of (next_action self restart) w2
  /\ rng (world_after (next_action self restart) w1) = rng w1
  /\ rng (world_after (next_action self restart) w2) = rng w2.
Proof.
  intros Hsnap Hpre. unfold result_of, world_after.
  rewrite !next_action_eq. cbn zeta. rewrite <- Hsnap.
  unfold pre_dispatch in Hpre.
  destruct (restart_cond restart (snapshot w1)); [done|].
  destruct (start_cond restart (snapshot w1)); [done|].
  destruct (acknowledge_cond (snapshot w1)); [done|discriminate].
Qed.

(** C5. A call of [next_action] leaves the snapshot as the caller sees it
    unchanged, whatever the outcome: [frame_CIN], [database_result] and
    [agent_requestable] keep their contents, because the lists that are
    shuffled are the private copy of [agent_requestable] and the freshly
    built [CIN_slots]; a second call therefore starts from the same
    snapshot and leaves it unchanged as well. *)
Theorem next_action_keeps_snapshot self restart self' restart' w :
  let w1 := world_after (next_action self restart) w in
  let w2 := world_after (next_action self' restart') w1 in
  (frame_CIN (snapshot w1) = frame_CIN (snapshot w)
   /\ database_result (snapshot w1) = database_result (snapshot w)
   /\ agent_requestable (snapshot w1) = agent_requestable (snapshot w))
  /\ snapshot w1 = snapshot w
  /\ snapshot w2 = snapshot w.
Proof.
  intros w1 w2.
  assert (snapshot w1 = snapshot w) as H1.
  { apply (stable_next_action 0 self restart w). }
  assert (snapshot w2 = snapshot w1) as H2.
  { apply (stable_next_action 0 self' restart' w1). }
  rewrite H2, H1. done.
Qed.


(** ** The elicit handler *)

Lemma elicit_loop_run frame slots agent_dact w w' :
  elicit_loop frame slots agent_dact w
  = ((elicit_loop frame slots agent_dact w').1, w).
Proof.
  induction slots as [|slot rest IH]; cbn [elicit_loop]; [done|].
  unfold bind, subscript. destruct (dict_get frame slot) as [v|]; [|done].
  cbn. destruct (truthy v); [apply IH|done].
Qed.

(** The loop stops at the first slot whose entry is unfilled. *)
Lemma elicit_loop_all_filled frame slots agent_dact w :
  (forall slot, In slot slots ->
     exists v, dict_get frame slot = Some v /\ truthy v = true) ->
  elicit_loop frame slots agent_dact w = (inr agent_dact, w).
Proof.
  induction slots as [|slot rest IH]; intros Hall; cbn [elicit_loop]; [done|].
  destruct (Hall slot) as (v & Hv & Ht); [by left|].
  unfold bind, subscript. rewrite Hv. cbn. rewrite Ht. cbn.
  apply IH. intros slot' Hin. apply Hall. by right.
Qed.

Lemma elicit_loop_in_frame frame slots agent_dact w :
  (forall slot, In slot slots -> dict_mem frame slot = true) ->
  exists agent_dact',
    elicit_loop frame slots agent_dact w = (inr agent_dact', w)
    /\ intent agent_dact' = intent agent_dact
    /\ (params agent_dact' = params agent_dact
        \/ exists slot v,
             In slot slots /\ dict_get frame slot = Some v /\ truthy v = false
             /\ params agent_dact'
                = params agent_dact ++ [constraint_eq slot (VStr "")]).
Proof.
  induction slots as [|slot rest IH]; intros Hall; cbn [elicit_loop].
  { exists agent_dact. auto. }
  pose proof (Hall slot (or_introl eq_refl)) as Hmem. unfold dict_mem in Hmem.
  unfold bind, subscript.
  destruct (dict_get frame slot) as [v|] eqn:Hv; [|discriminate]. cbn.
  destruct (truthy v) eqn:Ht; cbn.
  - destruct IH as (d' & Hrun & Hint & Hps).
    { intros slot' Hin. apply Hall. by right. }
    exists d'. split; [done|]. split; [done|].
    destruct Hps as [Hps|(slot' & v' & Hin & Hv' & Ht' & Hps)]; [by left|].
    right. exists slot', v'. repeat split; try done. by right.
  - eexists. split; [done|]. split; [done|].
    right. exists slot, v. repeat split; try done. by left.
Qed.

Lemma elicit_loop_KeyError frame before slot after agent_dact w :
  (forall slot', In slot' before ->
     exists v, dict_get frame slot' = Some v /\ truthy v = true) ->
  dict_get frame slot = None ->
  elicit_loop frame (before ++ slot :: after) agent_dact w
  = (inl (KeyError slot), w).
Proof.
  intros Hall Hnone. induction before as [|slot' rest IH]; cbn [elicit_loop app].
  - unfold bind, subscript. by rewrite Hnone.
  - destruct (Hall slot') as (v & Hv & Ht); [by left|].
    unfold bind, subscript. rewrite Hv. cbn. rewrite Ht. cbn.
    apply IH. intros slot'' Hin. apply Hall. by right.
Qed.

Lemma elicit_loop_no_KeyError frame slots agent_dact w key :
  (forall slot, In slot slots -> dict_mem frame slot = true) ->
  (elicit_loop frame slots agent_dact w).1 <> inl (KeyError key).
Proof.
  intros Hall. destruct (elicit_loop_in_frame frame slots agent_dact w Hall)
    as (d' & -> & _). discriminate.
Qed.

Lemma lookup_ref_alloc slots w l extra :
  lookup_ref slots w = Some l ->
  lookup_ref slots
    {| snapshot := snapshot w; locals := locals w ++ [extra]; rng := rng w |}
  = Some l.
Proof. destruct slots as [|n]; cbn; [done|]. apply lookup_app_l_Some. Qed.

Lemma lookup_ref_fresh s ls tape extra :
  lookup_ref (Local (length ls))
    {| snapshot := s; locals := ls ++ [extra]; rng := tape |}
  = Some extra.
Proof. cbn. by apply list_lookup_middle. Qed.

Lemma elicit_declines slots w :
  threshold_met (snapshot w) = false ->
  result_of (elicit slots) w = inr [].
Proof.
  intros Hth. unfold threshold_met in Hth.
  unfold result_of, elicit, bind, read, alloc, deref. cbn.
  rewrite list_lookup_middle by done. cbn. by rewrite Hth.
Qed.

Lemma elicit_filled slots w :
  threshold_met (snapshot w) = true ->
  agent_req_filled (snapshot w) = true ->
  result_of (elicit slots) w
  = match (shuffle_list (unfilled_CIN_slots (frame_CIN (snapshot w))) (rng w)).1 with
    | [] => inl IndexError
    | slot :: _ =>
        inr [count_results (snapshot w);
             act ELICIT [constraint_eq slot (VStr "")]]
    end.
Proof.
  intros Hth Hfilled. unfold threshold_met in Hth.
  unfold result_of, elicit, bind, read, alloc, deref. simpl.
  rewrite list_lookup_middle by done. simpl. rewrite Hth. simpl.
  rewrite Hfilled.
  unfold shuffle, bind, deref, with_rng, assign. simpl.
  rewrite list_lookup_middle by done. simpl.
  destruct (shuffle_list _ (rng w)) as [cin' tape']. simpl.
  rewrite list_lookup_insert_eq by (rewrite length_app; simpl; lia). simpl.
  by destruct cin'.
Qed.

Lemma elicit_not_filled slots w l :
  lookup_ref slots w = Some l ->
  threshold_met (snapshot w) = true ->
  agent_req_filled (snapshot w) = false ->
  result_of (elicit slots) w
  = match (elicit_loop (frame_CIN (snapshot w))
             (shuffle_list l (rng w)).1 (act ELICIT []) w).1 with
    | inl e => inl e
    | inr agent_dact => inr [count_results (snapshot w); agent_dact]
    end.
Proof.
  intros Hl Hth Hfilled. unfold threshold_met in Hth.
  unfold result_of, elicit, bind, read, alloc, deref. cbn -[lookup_ref shuffle_list].
  rewrite lookup_ref_fresh. cbn -[lookup_ref shuffle_list]. rewrite Hth.
  cbn -[lookup_ref shuffle_list]. rewrite Hfilled.
  unfold shuffle, bind, deref, with_rng. cbn -[lookup_ref shuffle_list].
  rewrite (lookup_ref_alloc _ _ _ _ Hl). cbn -[lookup_ref shuffle_list].
  destruct (shuffle_list l (rng w)) as [l' tape']. cbn -[lookup_ref shuffle_list].
  destruct slots as [|n]; cbn.
  - rewrite (elicit_loop_run _ _ _ _ w). cbn.
    by destruct (elicit_loop _ _ _ w).1.
  - cbn in Hl. rewrite list_lookup_insert_eq
      by (rewrite length_app; apply lookup_lt_Some in Hl; lia).
    cbn. rewrite (elicit_loop_run _ _ _ _ w). cbn.
    by destruct (elicit_loop _ _ _ w).1.
Qed.

Lemma shuffle_list_In {A} (l : list A) tape x :
  In x (shuffle_list l tape).1 <-> In x l.
Proof.
  rewrite <- !list_elem_of_In. by rewrite shuffle_list_Permutation.
Qed.

Lemma shuffle_list_nonempty {A} (l : list A) tape :
  l <> [] -> (shuffle_list l tape).1 <> [].
Proof.
  intros Hl Hnil. apply Hl. apply Permutation_nil_r.
  rewrite <- Hnil. symmetry. apply shuffle_list_Permutation.
Qed.

Lemma unfilled_CIN_slots_In frame key :
  In key (unfilled_CIN_slots frame)
  <-> In key (dict_keys frame)
      /\ (exists v, dict_get frame key = Some v /\ truthy v = false)
      /\ key <> TITLE.
Proof.
  unfold unfilled_CIN_slots. rewrite filter_In. split.
  - intros [Hin Htest]. split; [done|].
    destruct (dict_get frame key) as [v|]; [|discriminate].
    apply andb_true_iff in Htest as [Hv Hne].
    apply negb_true_iff in Hv. apply negb_true_iff, String.eqb_neq in Hne.
    eauto.
  - intros (Hin & (v & -> & Hv) & Hne). split; [done|].
    rewrite Hv. apply String.eqb_neq in Hne. by rewrite Hne.
Qed.

(** C1, as the code has it. When the number of unfilled non-title slots of
    the frame reaches [slot_left_unasked], the handler answers with a
    COUNT_RESULTS act whose count is [len(database_result)], followed by one
    ELICIT act: for an unfilled non-title slot of the frame when
    [agent_req_filled] holds and there is such a slot; otherwise, when the
    requestable slots are keys of the frame, for an unfilled requestable
    slot or, when every requestable slot is filled, with no constraint at
    all. *)
Theorem elicit_threshold slots w l :
  lookup_ref slots w = Some l ->
  threshold_met (snapshot w) = true ->
  (agent_req_filled (snapshot w) = true ->
   unfilled_CIN_slots (frame_CIN (snapshot w)) <> [] ->
   exists slot,
     In slot (unfilled_CIN_slots (frame_CIN (snapshot w)))
     /\ result_of (elicit slots) w
        = inr [count_results (snapshot w);
               act ELICIT [constraint_eq slot (VStr "")]])
  /\ (agent_req_filled (snapshot w) = false ->
      (forall slot, In slot l -> dict_mem (frame_CIN (snapshot w)) slot = true) ->
      exists ps,
        result_of (elicit slots) w
        = inr [count_results (snapshot w); act ELICIT ps]
        /\ (ps = []
            \/ exists slot v,
                 In slot l
                 /\ dict_get (frame_CIN (snapshot w)) slot = Some v
                 /\ truthy v = false
                 /\ ps = [constraint_eq slot (VStr "")]))
  /\ (agent_req_filled (snapshot w) = false ->
      (forall slot, In slot l ->
         exists v, dict_get (frame_CIN (snapshot w)) slot = Some v
                   /\ truthy v = true) ->
      result_of (elicit slots) w
      = inr [count_results (snapshot w); act ELICIT []]).
Proof.
  intros Hl Hth. split; [|split].
  - intros Hfilled Hcin. rewrite (elicit_filled _ _ Hth Hfilled).
    pose proof (shuffle_list_nonempty _ (rng w) Hcin) as Hne.
    pose proof (shuffle_list_In
                  (unfilled_CIN_slots (frame_CIN (snapshot w))) (rng w)) as Hin.
    destruct (shuffle_list _ (rng w)).1 as [|slot cin']; [done|].
    exists slot. split; [|done]. apply Hin. by left.
  - intros Hfilled Hkeys. rewrite (elicit_not_filled _ _ _ Hl Hth Hfilled).
    destruct (elicit_loop_in_frame (frame_CIN (snapshot w))
                (shuffle_list l (rng w)).1 (act ELICIT []) w)
      as ([i ps] & -> & Hint & Hps).
    { intros slot Hin. apply Hkeys. by apply shuffle_list_In in Hin. }
    cbn in *. subst i. exists ps. split; [done|].
    destruct Hps as [->|(slot & v & Hin & Hv & Ht & ->)]; [by left|].
    right. exists slot, v. repeat split; try done.
    by apply shuffle_list_In in Hin.
  - intros Hfilled Hall. rewrite (elicit_not_filled _ _ _ Hl Hth Hfilled).
    rewrite elicit_loop_all_filled; [done|].
    intros slot Hin. apply Hall. by apply shuffle_list_In in Hin.
Qed.

(** C9. [elicit] never meets a missing key when every slot of the list it
    is given is a key of the frame, and without [agent_req_filled] it then
    returns; but when the threshold is met, [agent_req_filled] is false and
    the shuffled list reaches a slot that the frame lacks before any
    unfilled one, looking that slot up raises [KeyError]; such a state
    exists. *)
Theorem elicit_KeyError_iff_slot_missing :
  (forall slots w l,
     lookup_ref slots w = Some l ->
     (forall slot, In slot l -> dict_mem (frame_CIN (snapshot w)) slot = true) ->
     (forall key, result_of (elicit slots) w <> inl (KeyError key))
     /\ (agent_req_filled (snapshot w) = false ->
         exists agent_dacts, result_of (elicit slots) w = inr agent_dacts))
  /\ (forall slots w l before slot after,
        lookup_ref slots w = Some l ->
        threshold_met (snapshot w) = true ->
        agent_req_filled (snapshot w) = false ->
        (shuffle_list l (rng w)).1 = before ++ slot :: after ->
        (forall slot', In slot' before ->
           exists v, dict_get (frame_CIN (snapshot w)) slot' = Some v
                     /\ truthy v = true) ->
        dict_get (frame_CIN (snapshot w)) slot = None ->
        result_of (elicit slots) w = inl (KeyError slot))
  /\ (exists slots w key,
        threshold_met (snapshot w) = true
        /\ agent_req_filled (snapshot w) = false
        /\ lookup_ref slots w = Some (agent_requestable (snapshot w))
        /\ result_of (elicit slots) w = inl (KeyError key)).
Proof.
  assert (forall slots w l before slot after,
        lookup_ref slots w = Some l ->
        threshold_met (snapshot w) = true ->
        agent_req_filled (snapshot w) = false ->
        (shuffle_list l (rng w)).1 = before ++ slot :: after ->
        (forall slot', In slot' before ->
           exists v, dict_get (frame_CIN (snapshot w)) slot' = Some v
                     /\ truthy v = true) ->
        dict_get (frame_CIN (snapshot w)) slot = None ->
        result_of (elicit slots) w = inl (KeyError slot)) as Hraise.
  { intros slots w l before slot after Hl Hth Hfilled Hshuf Hbefore Hnone.
    rewrite (elicit_not_filled _ _ _ Hl Hth Hfilled), Hshuf.
    by rewrite elicit_loop_KeyError. }
  split; [|split; [exact Hraise|]].
  - intros slots w l Hl Hkeys.
    destruct (threshold_met (snapshot w)) eqn:Hth.
    + destruct (agent_req_filled (snapshot w)) eqn:Hfilled.
      * split; [|discriminate]. intros key.
        rewrite (elicit_filled _ _ Hth Hfilled).
        by destruct (shuffle_list _ (rng w)).1.
      * rewrite (elicit_not_filled _ _ _ Hl Hth Hfilled).
        destruct (elicit_loop_in_frame (frame_CIN (snapshot w))
                    (shuffle_list l (rng w)).1 (act ELICIT []) w)
          as (d & -> & _).
        { intros slot Hin. apply Hkeys. by apply shuffle_list_In in Hin. }
        cbn. split; [discriminate|eauto].
    + rewrite (elicit_declines _ _ Hth). split; [discriminate|eauto].
  - exists Requestable, (world_of missing_keywords []), "keywords".
    assert (threshold_met missing_keywords = true) as Hth.
    { assert (exists key,
                In key (unfilled_CIN_slots (frame_CIN missing_keywords)))
        as [key Hkey].
      { destruct (String.eqb_spec "year" TITLE) as [Heq|Hne].
        - exists "actors". apply unfilled_CIN_slots_In.
          split; [cbn; tauto|]. split; [by exists VNone|].
          rewrite <- Heq. discriminate.
        - exists "year". apply unfilled_CIN_slots_In.
          split; [cbn; tauto|]. split; [by exists VNone|done]. }
      unfold threshold_met.
      destruct (unfilled_CIN_slots (frame_CIN missing_keywords)); [done|].
      apply Z.leb_le. cbn [slot_left_unasked missing_keywords length]. lia. }
    repeat split; try done.
    eapply (Hraise Requestable _ _ [] "keywords" []); try done.
Qed.

(** ** The recommend and inform handlers *)

(** C6, as the code has it. With no database result and no offer to make,
    [recommend] fails on [database_result[0]] with the built-in
    [IndexError]; otherwise it recommends [item_in_focus] when
    [agent_should_make_offer] holds and the first database result when it
    does not, with one RECOMMEND act constrained on the title of that
    item. *)
Theorem recommend_outcome slots w :
  (agent_should_make_offer (snapshot w) = false ->
   database_result (snapshot w) = [] ->
   result_of (recommend slots) w = inl IndexError)
  /\ (forall focus title,
        agent_should_make_offer (snapshot w) = true ->
        item_in_focus (snapshot w) = Some focus ->
        dict_get focus TITLE = Some title ->
        result_of (recommend slots) w
        = inr [act RECOMMEND [constraint_eq TITLE title]])
  /\ (forall first rest title,
        agent_should_make_offer (snapshot w) = false ->
        database_result (snapshot w) = first :: rest ->
        dict_get first TITLE = Some title ->
        result_of (recommend slots) w
        = inr [act RECOMMEND [constraint_eq TITLE title]]).
Proof.
  unfold result_of, recommend, bind, read, index, subscript. cbn.
  split; [|split].
  - intros -> ->. done.
  - intros focus title -> -> Ht. cbn. by rewrite Ht.
  - intros first rest title -> -> Ht. cbn. by rewrite Ht.
Qed.

Lemma focus_subscript_run w focus key v :
  item_in_focus (snapshot w) = Some focus ->
  dict_get focus key = Some v ->
  focus_subscript key w = (inr v, w).
Proof.
  intros Hf Hv. unfold focus_subscript, bind, read, subscript. cbn.
  rewrite Hf, Hv. done.
Qed.

Lemma focus_subscript_KeyError w focus key :
  item_in_focus (snapshot w) = Some focus ->
  dict_get focus key = None ->
  focus_subscript key w = (inl (KeyError key), w).
Proof.
  intros Hf Hv. unfold focus_subscript, bind, read, subscript. cbn.
  rewrite Hf, Hv. done.
Qed.

Lemma inform_param_run w focus title param :
  item_in_focus (snapshot w) = Some focus ->
  dict_get focus TITLE = Some title ->
  resolvable focus param = true ->
  (if negb (slot param =? MORE_INFO)
   then focus_subscript (slot param)
   else focus_subscript TITLE) w
  = (inr (cvalue (answer focus title param)), w).
Proof.
  intros Hf Ht Hres. unfold resolvable, dict_mem in Hres. unfold answer. cbn.
  destruct (slot param =? MORE_INFO); cbn.
  - by apply focus_subscript_run with focus.
  - cbn in Hres. destruct (dict_get focus (slot param)) as [v|] eqn:Hv;
      [|discriminate].
    by apply focus_subscript_run with focus.
Qed.

Lemma inform_params_run w focus title ps acc :
  item_in_focus (snapshot w) = Some focus ->
  dict_get focus TITLE = Some title ->
  (forall param, In param ps -> resolvable focus param = true) ->
  inform_params ps acc w = (inr (acc ++ map (answer focus title) ps), w).
Proof.
  intros Hf Ht. revert acc.
  induction ps as [|param rest IH]; intros acc Hres; cbn [inform_params map].
  { by rewrite app_nil_r. }
  unfold bind. rewrite (inform_param_run w focus title) by auto using in_eq.
  rewrite IH by auto using in_cons. by rewrite <- app_assoc.
Qed.

Lemma inform_params_KeyError w focus title before param after acc :
  item_in_focus (snapshot w) = Some focus ->
  dict_get focus TITLE = Some title ->
  (forall p, In p before -> resolvable focus p = true) ->
  resolvable focus param = false ->
  inform_params (before ++ param :: after) acc w
  = (inl (KeyError (slot param)), w).
Proof.
  intros Hf Ht Hbefore Hparam. revert acc.
  induction before as [|p rest IH]; intros acc; cbn [inform_params app].
  - unfold resolvable, dict_mem in Hparam.
    apply orb_false_iff in Hparam as [-> Hmem]. cbn. unfold bind.
    destruct (dict_get focus (slot param)) eqn:Hv; [discriminate|].
    by rewrite (focus_subscript_KeyError w focus).
  - unfold bind. rewrite (inform_param_run w focus title) by auto using in_eq.
    apply IH. auto using in_cons.
Qed.

Lemma informed_cases focus title user_dact :
  informed focus title user_dact
  = if Intent_eqb (intent user_dact) (User U_INQUIRE) then
      [act INFORM
         (if (length (map (answer focus title) (params user_dact)) =? 0)%nat
          then map (answer focus title) (params user_dact)
               ++ [constraint_eq "deny" title]
          else map (answer focus title) (params user_dact))]
    else if Intent_eqb (intent user_dact) (User U_ACCEPT) then
      [act CONTINUE_RECOMMENDATION [constraint_eq TITLE title]]
    else [].
Proof. unfold informed. by destruct (params user_dact). Qed.

Lemma inform_loop_run w focus title user_dacts agent_dacts :
  item_in_focus (snapshot w) = Some focus ->
  dict_get focus TITLE = Some title ->
  (forall user_dact, In user_dact user_dacts ->
     intent user_dact = User U_INQUIRE ->
     forall param, In param (params user_dact) -> resolvable focus param = true) ->
  inform_loop user_dacts agent_dacts w
  = (inr (agent_dacts ++ flat_map (informed focus title) user_dacts), w).
Proof.
  intros Hf Ht. revert agent_dacts.
  induction user_dacts as [|user_dact rest IH]; intros agent_dacts Hres;
    cbn [inform_loop flat_map].
  { by rewrite app_nil_r. }
  rewrite informed_cases.
  destruct (Intent_eqb (intent user_dact) (User U_INQUIRE)) eqn:Hinq.
  - apply Intent_eqb_eq in Hinq. unfold bind at 1.
    rewrite (inform_params_run w focus title) by eauto using in_eq.
    cbn [app]. unfold bind at 1.
    destruct (length (map (answer focus title) (params user_dact)) =? 0)%nat.
    + unfold bind. rewrite (focus_subscript_run w focus TITLE title) by done.
      cbn. rewrite IH by eauto using in_cons. by rewrite <- app_assoc.
    + cbn. rewrite IH by eauto using in_cons. by rewrite <- app_assoc.
  - destruct (Intent_eqb (intent user_dact) (User U_ACCEPT)).
    + unfold bind. rewrite (focus_subscript_run w focus TITLE title) by done.
      rewrite IH by eauto using in_cons. by rewrite <- app_assoc.
    + rewrite IH by eauto using in_cons. done.
Qed.

Lemma inform_loop_prefix w focus title earlier rest agent_dacts :
  item_in_focus (snapshot w) = Some focus ->
  dict_get focus TITLE = Some title ->
  (forall user_dact, In user_dact earlier ->
     intent user_dact = User U_INQUIRE ->
     forall param, In param (params user_dact) -> resolvable focus param = true) ->
  inform_loop (earlier ++ rest) agent_dacts w
  = inform_loop rest (agent_dacts ++ flat_map (informed focus title) earlier) w.
Proof.
  intros Hf Ht. revert agent_dacts.
  induction earlier as [|user_dact earlier IH]; intros agent_dacts Hres;
    cbn [inform_loop flat_map app].
  { by rewrite app_nil_r. }
  rewrite informed_cases.
  destruct (Intent_eqb (intent user_dact) (User U_INQUIRE)) eqn:Hinq.
  - apply Intent_eqb_eq in Hinq. unfold bind at 1.
    rewrite (inform_params_run w focus title) by eauto using in_eq.
    cbn [app]. unfold bind at 1.
    destruct (length (map (answer focus title) (params user_dact)) =? 0)%nat.
    + unfold bind. rewrite (focus_subscript_run w focus TITLE title) by done.
      cbn. rewrite IH by eauto using in_cons. by rewrite <- app_assoc.
    + cbn. rewrite IH by eauto using in_cons. by rewrite <- app_assoc.
  - destruct (Intent_eqb (intent user_dact) (User U_ACCEPT)).
    + unfold bind. rewrite (focus_subscript_run w focus TITLE title) by done.
      rewrite IH by eauto using in_cons. by rewrite <- app_assoc.
    + rewrite IH by eauto using in_cons. done.
Qed.

(** The first member of a list that fails a test. *)
Lemma first_failure {A} (f : A -> bool) (l : list A) :
  forallb f l = false ->
  exists before x after,
    l = before ++ x :: after
    /\ (forall y, In y before -> f y = true)
    /\ f x = false.
Proof.
  induction l as [|x l IH]; [done|]. cbn [forallb].
  destruct (f x) eqn:Hx.
  - intros (before & y & after & -> & Hbefore & Hy)%IH.
    exists (x :: before), y, after. split; [done|]. split; [|done].
    intros z [<-|Hz]; auto.
  - intros _. exists [], x, l. repeat split; try done.
Qed.

(** C3, as the code has it. With an item titled [title] in focus, every
    INQUIRE act whose requested slots are all resolvable (the more-info
    slot, or a key of the item) is answered by an INFORM act that copies the
    item's value for a slot other than more-info and puts the title in place
    of more-info; an INQUIRE act that requests nothing is answered by an
    INFORM act with the single constraint [deny = title]. A requested slot
    that the item lacks does not lead to that default: wherever the INQUIRE
    act stands in the user turn, the lookup raises [KeyError], on the first
    requested slot, in the order of the acts and of their constraints, that
    the item lacks. *)
Theorem inform_or_recommend_answers slots w focus title :
  item_in_focus (snapshot w) = Some focus ->
  dict_get focus TITLE = Some title ->
  ((forall user_dact, In user_dact (last_user_dacts (snapshot w)) ->
      intent user_dact = User U_INQUIRE ->
      forall param, In param (params user_dact) ->
                    resolvable focus param = true) ->
   result_of (inform_or_recommend slots) w
   = inr (flat_map (informed focus title) (last_user_dacts (snapshot w))))
  /\ (forall earlier user_dact rest before param after,
        last_user_dacts (snapshot w) = earlier ++ user_dact :: rest ->
        (forall earlier_dact, In earlier_dact earlier ->
           intent earlier_dact = User U_INQUIRE ->
           forall p, In p (params earlier_dact) -> resolvable focus p = true) ->
        intent user_dact = User U_INQUIRE ->
        params user_dact = before ++ param :: after ->
        (forall p, In p before -> resolvable focus p = true) ->
        resolvable focus param = false ->
        result_of (inform_or_recommend slots) w
        = inl (KeyError (slot param)))
  /\ (forall user_dact param,
        In user_dact (last_user_dacts (snapshot w)) ->
        intent user_dact = User U_INQUIRE ->
        In param (params user_dact) ->
        resolvable focus param = false ->
        exists user_dact' param',
          In user_dact' (last_user_dacts (snapshot w))
          /\ intent user_dact' = User U_INQUIRE
          /\ In param' (params user_dact')
          /\ resolvable focus param' = false
          /\ result_of (inform_or_recommend slots) w
             = inl (KeyError (slot param'))).
Proof.
  intros Hf Ht.
  assert (forall earlier user_dact rest before param after,
        last_user_dacts (snapshot w) = earlier ++ user_dact :: rest ->
        (forall earlier_dact, In earlier_dact earlier ->
           intent earlier_dact = User U_INQUIRE ->
           forall p, In p (params earlier_dact) -> resolvable focus p = true) ->
        intent user_dact = User U_INQUIRE ->
        params user_dact = before ++ param :: after ->
        (forall p, In p before -> resolvable focus p = true) ->
        resolvable focus param = false ->
        result_of (inform_or_recommend slots) w
        = inl (KeyError (slot param))) as Hraise.
  { intros earlier user_dact rest before param after Huds Hearlier Hinq Hps
      Hbefore Hparam.
    unfold result_of, inform_or_recommend, bind, read. cbn. rewrite Huds.
    rewrite (inform_loop_prefix w focus title) by done.
    cbn [inform_loop]. rewrite Hinq, Hps. cbn [Intent_eqb UserIntents_eqb].
    unfold bind.
    by rewrite (inform_params_KeyError w focus title). }
  split; [|split; [exact Hraise|]].
  - intros Hres. unfold result_of, inform_or_recommend, bind, read. cbn.
    by rewrite (inform_loop_run w focus title).
  - intros user_dact param Hin Hinq Hparam Hunres.
    destruct (first_failure
                (fun dact =>
                   negb (Intent_eqb (intent dact) (User U_INQUIRE))
                   || forallb (resolvable focus) (params dact))
                (last_user_dacts (snapshot w)))
      as (earlier & ud & rest & Huds & Hearlier & Hud).
    { apply not_true_iff_false. intros Hall.
      rewrite forallb_forall in Hall. specialize (Hall user_dact Hin).
      rewrite Hinq in Hall. cbn in Hall. rewrite forallb_forall in Hall.
      rewrite (Hall param Hparam) in Hunres. discriminate. }
    apply orb_false_iff in Hud as [Hudinq Hudps].
    apply negb_false_iff, Intent_eqb_eq in Hudinq.
    destruct (first_failure _ _ Hudps) as (before & p & after & Hps & Hbefore & Hp).
    exists ud, p. split; [rewrite Huds; apply in_elt|].
    split; [done|]. split; [rewrite Hps; apply in_elt|]. split; [done|].
    apply (Hraise earlier ud rest before p after); try done.
    intros earlier_dact Hed Hedinq q Hq.
    specialize (Hearlier earlier_dact Hed). rewrite Hedinq in Hearlier.
    cbn in Hearlier. rewrite forallb_forall in Hearlier. by apply Hearlier.
Qed.

(** ** The example aggregator *)

Lemma split_commas_nonempty s : split_commas s <> [].
Proof.
  destruct s as [|c s]; cbn; [done|].
  destruct (Ascii.eqb c ","); [done|]. by destruct (split_commas s).
Qed.

Lemma distinct_all_equal l q :
  l <> [] -> (forall x, In x l -> x = q) -> distinct l = [q].
Proof.
  unfold distinct. induction l as [|x l IH]; intros Hne Hall; [done|].
  cbn [nodup]. assert (x = q) as -> by (apply Hall; by left).
  destruct l as [|y l].
  { by destruct (in_dec string_dec q []). }
  assert (y = q) as -> by (apply Hall; right; by left).
  destruct (in_dec string_dec q (q :: l)) as [_|Hnot].
  - apply IH; [done|]. intros x Hin. apply Hall. by right.
  - exfalso. apply Hnot. by left.
Qed.

Lemma examples_loop_single database_result slot fragment examples w :
  only_fragment database_result slot fragment ->
  (forall x, In x examples -> x = quoted fragment) ->
  examples <> [] \/ database_result <> [] ->
  exists collected,
    examples_loop database_result slot examples w = (inr collected, w)
    /\ collected <> []
    /\ forall x, In x collected -> x = quoted fragment.
Proof.
  revert examples.
  induction database_result as [|result rest IH]; intros examples Hdb Hall Hne;
    cbn [examples_loop].
  { exists examples. destruct Hne; done. }
  destruct (Hdb result) as (s & Hs & Hfrag); [by left|].
  unfold bind, subscript. rewrite Hs. cbn.
  set (kept := List.filter _ (map strip (split_commas s))).
  assert (forall x, In x (examples ++ map quoted kept) -> x = quoted fragment)
    as Hall'.
  { intros x [Hin|Hin]%in_app_iff; [by apply Hall|].
    apply in_map_iff in Hin as (y & <- & Hy). f_equal.
    apply filter_In in Hy as [Hy _].
    apply in_map_iff in Hy as (z & <- & Hz). by apply Hfrag. }
  assert (examples ++ map quoted kept <> []) as Hne'.
  { destruct examples as [|e examples]; [|done]. cbn. subst kept. cbn.
    pose proof (split_commas_nonempty s). by destruct (split_commas s). }
  rewrite (distinct_all_equal _ _ Hne' Hall'). cbn.
  apply IH; [|done|by left].
  intros r Hr. apply Hdb. by right.
Qed.

(** C7, as the code has it. When the entries of [database_result] yield a
    single distinct comma-separated fragment for the slot, the aggregator
    returns that fragment, stripped and wrapped in single quotes, with no
    [" or "] in between, and draws nothing from the random source. *)
Theorem _generate_examples_single database_result slot fragment w :
  database_result <> [] ->
  only_fragment database_result slot fragment ->
  result_of (_generate_examples database_result slot) w
  = inr (Some (quoted fragment))
  /\ rng (world_after (_generate_examples database_result slot) w) = rng w.
Proof.
  intros Hne Hdb.
  destruct (examples_loop_single database_result slot fragment [] w Hdb)
    as (collected & Hrun & Hcne & Hall); [done|by right|].
  unfold result_of, world_after, _generate_examples, bind. rewrite Hrun.
  rewrite (distinct_all_equal _ _ Hcne Hall).
  destruct collected as [|c collected]; [done|].
  unfold alloc, shuffle, bind, deref, with_rng, assign, index. cbn.
  rewrite list_lookup_middle by done. cbn.
  rewrite list_lookup_insert_eq by (rewrite length_app; cbn; lia). done.
Qed.

(** ** Totality of the dispatcher *)

Lemma holds_requestable_extends n w w' :
  holds_requestable n w -> extends n w w' -> holds_requestable n w'.
Proof.
  intros (l & Hl & Hperm) (Hsnap & _ & Hkeep).
  destruct (Hkeep l Hl) as (l' & Hl' & Hperm').
  exists l'. split; [done|]. by rewrite Hperm', Hperm, Hsnap.
Qed.

Lemma run_extends {A} n (m : M A) w r w' :
  stable n m -> m w = (r, w') -> extends n w w'.
Proof. intros Hm Hrun. specialize (Hm w). by rewrite Hrun in Hm. Qed.

Lemma elicit_returns n w :
  holds_requestable n w ->
  elicit_pre (snapshot w) = true ->
  exists agent_dacts,
    result_of (elicit (Local n)) w = inr agent_dacts
    /\ (threshold_met (snapshot w) = true -> agent_dacts <> []).
Proof.
  intros (l & Hl & Hperm) Hpre. unfold elicit_pre in Hpre.
  destruct (threshold_met (snapshot w)) eqn:Hth.
  - cbn in Hpre. destruct (agent_req_filled (snapshot w)) eqn:Hfilled.
    + rewrite (elicit_filled _ _ Hth Hfilled).
      assert (unfilled_CIN_slots (frame_CIN (snapshot w)) <> []) as Hcin
        by (by destruct (unfilled_CIN_slots _)).
      pose proof (shuffle_list_nonempty _ (rng w) Hcin).
      destruct (shuffle_list _ (rng w)).1; [done|]. eauto.
    + rewrite (elicit_not_filled (Local n) w l Hl Hth Hfilled).
      destruct (elicit_loop_in_frame (frame_CIN (snapshot w))
                  (shuffle_list l (rng w)).1 (act ELICIT []) w)
        as (d & -> & _).
      { intros slot Hin%shuffle_list_In.
        unfold requestable_in_frame in Hpre.
        rewrite forallb_forall in Hpre. apply Hpre.
        apply list_elem_of_In. rewrite <- Hperm. by apply list_elem_of_In. }
      cbn. eauto.
  - rewrite (elicit_declines _ _ Hth). eauto.
Qed.

Lemma recommend_returns slots w :
  recommend_pre (snapshot w) = true ->
  exists agent_dact, result_of (recommend slots) w = inr [agent_dact].
Proof.
  unfold recommend_pre, dict_mem.
  unfold result_of, recommend, bind, read, index, subscript. cbn.
  destruct (agent_should_make_offer (snapshot w)); cbn.
  - destruct (item_in_focus (snapshot w)) as [it|]; [|discriminate].
    destruct (dict_get it TITLE); [eauto|discriminate].
  - destruct (database_result (snapshot w)) as [|it rest]; [discriminate|].
    cbn. destruct (dict_get it TITLE); [eauto|discriminate].
Qed.

Lemma inform_or_recommend_returns slots w :
  inform_pre (snapshot w) = true ->
  exists agent_dacts, result_of (inform_or_recommend slots) w = inr agent_dacts.
Proof.
  unfold inform_pre, dict_mem. intros Hpre.
  destruct (item_in_focus (snapshot w)) as [focus|] eqn:Hf; [|discriminate].
  destruct (dict_get focus TITLE) as [title|] eqn:Ht; [|discriminate].
  cbn in Hpre. rewrite forallb_forall in Hpre.
  unfold result_of, inform_or_recommend, bind, read. cbn.
  rewrite (inform_loop_run w focus title); [eauto|done|done|].
  intros user_dact Hin Hinq param Hparam.
  specialize (Hpre user_dact Hin). rewrite Hinq in Hpre. cbn in Hpre.
  rewrite forallb_forall in Hpre. by apply Hpre.
Qed.

Lemma choose_elicit_or_recommend_returns n w :
  holds_requestable n w ->
  elicit_pre (snapshot w) = true ->
  threshold_met (snapshot w) || recommend_pre (snapshot w) = true ->
  exists agent_dacts,
    result_of (choose_elicit_or_recommend (Local n)) w = inr agent_dacts
    /\ agent_dacts <> [].
Proof.
  intros Hinv Hpre Hor.
  destruct (elicit_returns n w Hinv Hpre) as (acts & Hrun & Hne).
  unfold result_of, choose_elicit_or_recommend, bind in *.
  destruct (elicit (Local n) w) as [r w'] eqn:Hel. cbn in Hrun. subst r.
  destruct acts as [|a acts]; [|by eauto].
  assert (snapshot w' = snapshot w) as Hsnap.
  { by apply (run_extends n _ _ _ _ (stable_elicit n n) Hel). }
  destruct (threshold_met (snapshot w)); [by destruct Hne|]. cbn in Hor.
  rewrite <- Hsnap in Hor.
  destruct (recommend_returns (Local n) w' Hor) as (a & Ha).
  unfold result_of in Ha. rewrite Ha. eauto.
Qed.

(** The handler of an active state returns when its lookups succeed; only
    [elicit] and [inform_or_recommend] may return nothing. *)
Lemma handler_returns n w state_name handler :
  dict_get possible_actions_per_state state_name = Some handler ->
  holds_requestable n w ->
  handler_pre state_name (snapshot w) = true ->
  exists agent_dacts, result_of (handler (Local n)) w = inr agent_dacts.
Proof.
  unfold possible_actions_per_state, handler_pre. cbn [dict_get].
  intros Hh Hinv Hpre.
  rewrite (String.eqb_sym state_name) in Hpre.
  destruct ("agent_req_filled" =? state_name).
  { injection Hh as <-. destruct (elicit_returns n w Hinv Hpre) as (a & ? & _).
    eauto. }
  rewrite (String.eqb_sym state_name) in Hpre.
  destruct ("agent_made_partial_offer" =? state_name).
  { injection Hh as <-. apply andb_true_iff in Hpre as [Hel Hor].
    destruct (choose_elicit_or_recommend_returns n w Hinv Hel Hor) as (a & ? & _).
    eauto. }
  rewrite (String.eqb_sym state_name) in Hpre.
  destruct ("agent_should_make_offer" =? state_name).
  { injection Hh as <-. destruct (recommend_returns (Local n) w Hpre). eauto. }
  rewrite (String.eqb_sym state_name) in Hpre.
  destruct ("agent_made_offer" =? state_name).
  { injection Hh as <-. by apply inform_or_recommend_returns. }
  destruct ("agent_offer_no_results" =? state_name).
  { injection Hh as <-. unfold result_of, no_results, ret. cbn. eauto. }
  destruct ("at_terminal_state" =? state_name); [|discriminate].
  injection Hh as <-. unfold result_of, finish, ret. cbn. eauto.
Qed.

Lemma dispatch_returns n state_names w :
  holds_requestable n w ->
  (forall state_name, In state_name state_names ->
     handler_pre state_name (snapshot w) = true) ->
  exists agent_dacts,
    result_of (dispatch state_names (Local n)) w = inr agent_dacts
    /\ agent_dacts <> [].
Proof.
  revert w. induction state_names as [|state_name rest IH];
    intros w Hinv Hpre; cbn [dispatch].
  { eexists. split; [reflexivity|done]. }
  destruct (dict_get possible_actions_per_state state_name) as [handler|] eqn:Hh.
  - destruct (handler_returns n w state_name handler Hh Hinv) as (acts & Hrun).
    { apply Hpre. by left. }
    unfold result_of, bind in *.
    destruct (handler (Local n) w) as [r w'] eqn:Hrun'. cbn in Hrun. subst r.
    destruct acts as [|a acts]; [|by eauto].
    pose proof (run_extends n _ _ _ _ (stable_handler n n _ _ Hh) Hrun') as Hext.
    apply IH; [by eapply holds_requestable_extends|].
    intros name Hin. destruct Hext as [-> _]. apply Hpre. by right.
  - apply IH; [done|]. intros name Hin. apply Hpre. by right.
Qed.

Lemma dispatch_fallback n state_names w :
  (forall state_name handler,
     In state_name state_names ->
     dict_get possible_actions_per_state state_name = Some handler ->
     forall slots w', snapshot w' = snapshot w ->
                      result_of (handler slots) w' = inr []) ->
  result_of (dispatch state_names (Local n)) w = inr [act CANT_HELP []].
Proof.
  revert w. induction state_names as [|state_name rest IH];
    intros w Hempty; cbn [dispatch]; [done|].
  destruct (dict_get possible_actions_per_state state_name) as [handler|] eqn:Hh.
  - pose proof (Hempty state_name handler (or_introl eq_refl) Hh (Local n) w
                  eq_refl) as Hrun.
    unfold result_of, bind in *.
    destruct (handler (Local n) w) as [r w'] eqn:Hrun'. cbn in Hrun. subst r.
    pose proof (run_extends n _ _ _ _ (stable_handler n n _ _ Hh) Hrun')
      as [Hsnap _].
    apply IH. intros name h Hin Hname slots w'' Hw''.
    apply (Hempty name h); [by right|done|congruence].
  - apply IH. intros name h Hin Hname. apply (Hempty name h); [by right|done].
Qed.

(** C2. [next_action] returns, and returns at least one act, on every
    well-formed snapshot (there is a slot to elicit and the lookups of the
    handlers of the active states succeed). A snapshot that reaches the
    table of handlers and whose active states are none, or unknown to the
    table, or all handled by handlers that return nothing, is answered by
    exactly [[CANT_HELP]]. A handler that returns nothing makes the
    dispatcher go on with the next active state. *)
Theorem next_action_total :
  (forall self restart w,
     well_formed (snapshot w) = true ->
     exists agent_dacts,
       result_of (next_action self restart) w = inr agent_dacts
       /\ agent_dacts <> [])
  /\ (forall self w,
        pre_dispatch false (snapshot w) = false ->
        (forall state_name handler,
           In state_name (agent_offer_state (snapshot w)) ->
           dict_get possible_actions_per_state state_name = Some handler ->
           forall slots w', snapshot w' = snapshot w ->
                            result_of (handler slots) w' = inr []) ->
        result_of (next_action self false) w = inr [act CANT_HELP []])
  /\ (forall state_name handler rest slots w w',
        dict_get possible_actions_per_state state_name = Some handler ->
        handler slots w = (inr [], w') ->
        dispatch (state_name :: rest) slots w = dispatch rest slots w').
Proof.
  split; [|split].
  - intros self restart w Hwf. unfold well_formed in Hwf.
    apply andb_true_iff in Hwf as [Hslots Hpre].
    rewrite forallb_forall in Hpre.
    unfold result_of. rewrite next_action_eq. cbn zeta. unfold first_slot.
    destruct (agent_requestable (snapshot w)) as [|slot0 others] eqn:Hreq;
      [discriminate|].
    destruct (restart_cond restart (snapshot w)); [by eauto|].
    destruct (start_cond restart (snapshot w)); [by eauto|].
    destruct (acknowledge_cond (snapshot w)); [by eauto|].
    apply dispatch_returns; [|done].
    exists (agent_requestable (snapshot w)). split; [|done].
    apply lookup_copy.
  - intros self w Hpre Hempty. unfold pre_dispatch in Hpre.
    apply orb_false_iff in Hpre as [Hpre Hack].
    apply orb_false_iff in Hpre as [Hrestart Hstart].
    unfold result_of. rewrite next_action_eq. cbn zeta.
    rewrite Hrestart, Hstart, Hack. by apply dispatch_fallback.
  - intros state_name handler rest slots w w' Hh Hrun. cbn [dispatch].
    rewrite Hh. unfold bind. by rewrite Hrun.
Qed.

(** ** More on the dispatcher *)

Lemma dispatch_skip before rest slots w :
  (forall name, In name before ->
     dict_get possible_actions_per_state name = None) ->
  dispatch (before ++ rest) slots w = dispatch rest slots w.
Proof.
  induction before as [|name before IH]; intros Hnone; [done|].
  cbn [app dispatch]. rewrite (Hnone name) by (by left).
  apply IH. intros name' Hin. apply Hnone. by right.
Qed.

Lemma dispatch_nonempty state_names slots w agent_dacts :
  result_of (dispatch state_names slots) w = inr agent_dacts ->
  agent_dacts <> [].
Proof.
  revert w. induction state_names as [|name rest IH]; intros w;
    cbn [dispatch].
  { intros [= <-]. done. }
  destruct (dict_get possible_actions_per_state name) as [handler|];
    [|apply IH].
  unfold result_of, bind. destruct (handler slots w) as [[e|acts] w'];
    [discriminate|].
  destruct acts as [|a acts]; [apply IH|]. cbn. intros [= <-]. done.
Qed.

(** X1. Acknowledgement after the welcome: without a restart, when some
    user act is ACKNOWLEDGE or UNK and some act of the last agent turn is
    WELCOME, the answer is exactly [[ELICIT(slot0 = "")]] for the first
    requestable slot. *)
Theorem next_action_acknowledge self w slot0 rest :
  agent_requestable (snapshot w) = slot0 :: rest ->
  (forall dact,
     In dact (last_user_dacts (snapshot w)) -> intent dact <> User U_RESTART) ->
  (exists dact,
     In dact (last_user_dacts (snapshot w))
     /\ (intent dact = User U_ACKNOWLEDGE \/ intent dact = User U_UNK)) ->
  (exists dact,
     In dact (last_agent_dacts (snapshot w)) /\ intent dact = Agent WELCOME) ->
  result_of (next_action self false) w
  = inr [act ELICIT [constraint_eq slot0 (VStr "")]].
Proof.
  intros Hslots Hno (ud & Hud & Hack) (ad & Had & Hwelcome).
  unfold result_of. rewrite next_action_eq. cbn zeta.
  assert (restart_cond false (snapshot w) = false) as ->.
  { unfold restart_cond. cbn. by apply has_intent_false. }
  assert (start_cond false (snapshot w) = false) as ->.
  { unfold start_cond. cbn.
    destruct (last_user_dacts (snapshot w)) as [|u us] eqn:Hus; [done|].
    destruct (last_agent_dacts (snapshot w)) as [|a ads]; [done|].
    cbn [orb]. apply not_true_iff_false. intros Hall.
    rewrite forallb_forall in Hall. specialize (Hall ud Hud).
    destruct Hack as [Hi|Hi]; rewrite Hi in Hall; discriminate. }
  assert (acknowledge_cond (snapshot w) = true) as ->.
  { unfold acknowledge_cond. apply andb_true_iff. split.
    - apply existsb_exists. exists ud. split; [done|].
      destruct Hack as [-> | ->]; done.
    - apply existsb_exists. exists ad. split; [done|]. by rewrite Hwelcome. }
  unfold first_slot. by rewrite Hslots.
Qed.

(** X2. With no requestable slot, the two branches that elicit the first
    slot (restart, acknowledgement after the welcome) fail on [slots[0]]
    with [IndexError]; the snapshot is left as it was. *)
Theorem next_action_without_slots self restart w :
  agent_requestable (snapshot w) = [] ->
  restart_cond restart (snapshot w) = true
  \/ (start_cond restart (snapshot w) = false
      /\ acknowledge_cond (snapshot w) = true) ->
  result_of (next_action self restart) w = inl IndexError
  /\ snapshot (world_after (next_action self restart) w) = snapshot w.
Proof.
  intros Hslots Hcond. unfold result_of, world_after.
  rewrite next_action_eq. cbn zeta. unfold first_slot. rewrite Hslots.
  destruct (restart_cond restart (snapshot w)); [done|].
  destruct Hcond as [?|[-> ->]]; done.
Qed.

(** X3. Whenever [next_action] returns, it returns at least one act; no
    assumption on the snapshot is needed. *)
Theorem next_action_never_empty self restart w agent_dacts :
  result_of (next_action self restart) w = inr agent_dacts ->
  agent_dacts <> [].
Proof.
  unfold result_of. rewrite next_action_eq. cbn zeta.
  destruct (restart_cond restart (snapshot w)).
  { cbn. destruct (first_slot (snapshot w)); [discriminate|].
    intros [= <-]. done. }
  destruct (start_cond restart (snapshot w)).
  { intros [= <-]. done. }
  destruct (acknowledge_cond (snapshot w)).
  { cbn. destruct (first_slot (snapshot w)); [discriminate|].
    intros [= <-]. done. }
  apply dispatch_nonempty.
Qed.

Lemma dispatch_declined before rest slots w w1 :
  declined_all before slots w w1 ->
  dispatch (before ++ rest) slots w = dispatch rest slots w1.
Proof.
  induction 1 as [slots w
                 |state_name before slots w w' Hnone _ IH
                 |state_name handler before slots w w1 w' Hh Hrun _ IH];
    cbn [app dispatch].
  - done.
  - by rewrite Hnone.
  - rewrite Hh. unfold bind. by rewrite Hrun.
Qed.

Lemma declined_all_unknown before slots w :
  (forall name, In name before ->
     dict_get possible_actions_per_state name = None) ->
  declined_all before slots w w.
Proof.
  induction before as [|name before IH]; intros Hnone; [constructor|].
  apply declined_unknown; [apply Hnone; by left|].
  apply IH. intros name' Hin. apply Hnone. by right.
Qed.

(** X4. The dispatcher follows the order of the active state names:
    names unknown to the table are skipped and so are the known names whose
    handler returns no act; the first known one whose handler returns acts
    decides the answer, and an exception raised by a handler that is
    reached is passed on (there is no fall back to CANT_HELP). *)
Theorem dispatch_first_answer before state_name after handler slots w w1 :
  declined_all before slots w w1 ->
  dict_get possible_actions_per_state state_name = Some handler ->
  (forall agent_dacts w',
     handler slots w1 = (inr agent_dacts, w') ->
     agent_dacts <> [] ->
     dispatch (before ++ state_name :: after) slots w = (inr agent_dacts, w'))
  /\ (forall e w',
        handler slots w1 = (inl e, w') ->
        dispatch (before ++ state_name :: after) slots w = (inl e, w'))
  /\ ((forall name, In name before ->
         dict_get possible_actions_per_state name = None) ->
      w1 = w).
Proof.
  intros Hdeclined Hh. split; [|split].
  - intros acts w' Hrun Hne. rewrite (dispatch_declined _ _ _ _ _ Hdeclined).
    cbn [dispatch]. rewrite Hh. unfold bind. rewrite Hrun.
    by destruct acts.
  - intros e w' Hrun. rewrite (dispatch_declined _ _ _ _ _ Hdeclined).
    cbn [dispatch]. rewrite Hh. unfold bind. by rewrite Hrun.
  - intros Hnone. clear Hh. induction Hdeclined as
      [slots w
      |name before slots w w' _ _ IH
      |name handler' before slots w w2 w' Hh' _ _ _]; [done| |].
    + apply IH. intros name' Hin. apply Hnone. by right.
    + rewrite (Hnone name) in Hh' by (by left). discriminate.
Qed.

(** X5. A snapshot that reaches the table and whose first known active
    state is [agent_offer_no_results] is answered by exactly
    [[NO_RESULTS]]; one whose first known active state is
    [at_terminal_state] by exactly [[BYE]]. *)
Theorem next_action_no_results_or_bye self w before after :
  pre_dispatch false (snapshot w) = false ->
  (forall name, In name before ->
     dict_get possible_actions_per_state name = None) ->
  (agent_offer_state (snapshot w) = before ++ "agent_offer_no_results" :: after ->
   result_of (next_action self false) w = inr [act NO_RESULTS []])
  /\ (agent_offer_state (snapshot w) = before ++ "at_terminal_state" :: after ->
      result_of (next_action self false) w = inr [act BYE []]).
Proof.
  intros Hpre Hnone. unfold pre_dispatch in Hpre.
  apply orb_false_iff in Hpre as [Hpre Hack].
  apply orb_false_iff in Hpre as [Hrestart Hstart].
  unfold result_of. rewrite next_action_eq. cbn zeta.
  rewrite Hrestart, Hstart, Hack.
  split; intros ->; by rewrite dispatch_skip.
Qed.

(** ** More on the handlers *)

Lemma elicit_declines_run slots w :
  threshold_met (snapshot w) = false ->
  elicit slots w
  = (inr [],
     {| snapshot := snapshot w;
        locals := locals w ++ [unfilled_CIN_slots (frame_CIN (snapshot w))];
        rng := rng w |}).
Proof.
  intros Hth. unfold threshold_met in Hth.
  unfold elicit, bind, read, alloc, deref. cbn.
  rewrite list_lookup_middle by done. cbn. by rewrite Hth.
Qed.

Lemma elicit_met_nonempty slots w l agent_dacts :
  lookup_ref slots w = Some l ->
  threshold_met (snapshot w) = true ->
  result_of (elicit slots) w = inr agent_dacts ->
  agent_dacts <> [].
Proof.
  intros Hl Hth. destruct (agent_req_filled (snapshot w)) eqn:Hfilled.
  - rewrite (elicit_filled _ _ Hth Hfilled).
    destruct (shuffle_list _ (rng w)).1; [discriminate|]. intros [= <-]. done.
  - rewrite (elicit_not_filled _ _ _ Hl Hth Hfilled).
    destruct (elicit_loop _ _ _ w).1; [discriminate|]. intros [= <-]. done.
Qed.

Lemma reads_only_ret {A} (a : A) : reads_only (ret a).
Proof. by intros w w0 _. Qed.

Lemma reads_only_raise {A} e : reads_only (@raise A e).
Proof. by intros w w0 _. Qed.

Lemma reads_only_read {A} (field : DialogueState -> A) : reads_only (read field).
Proof. intros w w0 Hs. unfold read. cbn. by rewrite Hs. Qed.

Lemma reads_only_bind {A B} (m : M A) (k : A -> M B) :
  reads_only m -> (forall a, reads_only (k a)) -> reads_only (bind m k).
Proof.
  intros Hm Hk w w0 Hs. unfold bind. rewrite (Hm w w0 Hs).
  pose proof (Hm w0 w0 eq_refl) as E.
  destruct (m w0) as [r w0']. cbn in *. injection E as <-.
  destruct r; [done|]. by apply Hk.
Qed.

Lemma reads_only_index {A} (l : list A) i : reads_only (index l i).
Proof.
  unfold index. destruct (l !! i); [apply reads_only_ret|apply reads_only_raise].
Qed.

Lemma reads_only_subscript {V} (d : dict V) k : reads_only (subscript d k).
Proof.
  unfold subscript.
  destruct (dict_get d k); [apply reads_only_ret|apply reads_only_raise].
Qed.

Ltac reads_only_step :=
  match goal with
  | |- reads_only (ret _) => apply reads_only_ret
  | |- reads_only (raise _) => apply reads_only_raise
  | |- reads_only (read _) => apply reads_only_read
  | |- reads_only (index _ _) => apply reads_only_index
  | |- reads_only (subscript _ _) => apply reads_only_subscript
  | |- reads_only (bind _ _) => apply reads_only_bind; [|intros ?]
  | |- reads_only (if ?b then _ else _) => destruct b
  | |- reads_only (match ?x with _ => _ end) => destruct x
  end.

Lemma reads_only_focus_subscript key : reads_only (focus_subscript key).
Proof. unfold focus_subscript. repeat reads_only_step. Qed.

Lemma reads_only_inform_params ps acc : reads_only (inform_params ps acc).
Proof.
  revert acc. induction ps as [|param rest IH]; intros acc;
    cbn [inform_params]; repeat reads_only_step;
    first [apply reads_only_focus_subscript | apply IH].
Qed.

Lemma reads_only_inform_loop user_dacts agent_dacts :
  reads_only (inform_loop user_dacts agent_dacts).
Proof.
  revert agent_dacts. induction user_dacts as [|user_dact rest IH];
    intros agent_dacts; cbn [inform_loop]; repeat reads_only_step;
    first [apply reads_only_inform_params | apply reads_only_focus_subscript
          | apply IH].
Qed.

Lemma reads_only_inform_or_recommend slots :
  reads_only (inform_or_recommend slots).
Proof.
  unfold inform_or_recommend. repeat reads_only_step.
  apply reads_only_inform_loop.
Qed.

Lemma reads_only_recommend slots : reads_only (recommend slots).
Proof. unfold recommend. repeat reads_only_step. Qed.

(** X6. [choose_elicit_or_recommend] is [elicit] when the threshold of
    open slots is met, errors included, and [recommend] when it is not. *)
Theorem choose_elicit_or_recommend_cases slots w l :
  lookup_ref slots w = Some l ->
  (threshold_met (snapshot w) = true ->
   result_of (choose_elicit_or_recommend slots) w
   = result_of (elicit slots) w)
  /\ (threshold_met (snapshot w) = false ->
      result_of (choose_elicit_or_recommend slots) w
      = result_of (recommend slots) w).
Proof.
  intros Hl. split; intros Hth.
  - pose proof (elicit_met_nonempty slots w l) as Hne.
    unfold result_of, choose_elicit_or_recommend, bind in *.
    destruct (elicit slots w) as [[e|acts] w']; [done|].
    destruct acts as [|a acts]; [|done].
    by destruct (Hne [] Hl Hth eq_refl).
  - unfold result_of, choose_elicit_or_recommend, bind.
    rewrite (elicit_declines_run _ _ Hth).
    match goal with
    | |- (recommend slots ?w1).1 = _ =>
        by rewrite (reads_only_recommend slots w1 w (eq_refl (snapshot w)))
    end.
Qed.

(** X7. User acts other than INQUIRE and ACCEPT are ignored: when the
    user turn has none of these, [inform_or_recommend] returns no act, looks
    nothing up (an item in focus is not needed) and leaves the world as it
    was. *)
Theorem inform_or_recommend_ignores_other_intents slots w :
  (forall dact, In dact (last_user_dacts (snapshot w)) ->
     intent dact <> User U_INQUIRE /\ intent dact <> User U_ACCEPT) ->
  inform_or_recommend slots w = (inr [], w).
Proof.
  unfold inform_or_recommend, bind, read. cbn.
  generalize (last_user_dacts (snapshot w)) as user_dacts.
  intros user_dacts Hother.
  enough (forall acc, inform_loop user_dacts acc w = (inr acc, w)) by done.
  induction user_dacts as [|user_dact rest IH]; intros acc;
    cbn [inform_loop]; [done|].
  destruct (Hother user_dact) as [Hinq Hacc]; [by left|].
  apply (not_iff_compat (Intent_eqb_eq _ _)), not_true_iff_false in Hinq.
  apply (not_iff_compat (Intent_eqb_eq _ _)), not_true_iff_false in Hacc.
  rewrite Hinq, Hacc. apply IH. intros dact Hin. apply Hother. by right.
Qed.

(** X8. With no item in focus, an INQUIRE or ACCEPT act of the user makes
    [inform_or_recommend] fail with [TypeError] (a subscript on [None]). *)
Theorem inform_or_recommend_without_focus slots w :
  item_in_focus (snapshot w) = None ->
  (exists dact,
     In dact (last_user_dacts (snapshot w))
     /\ (intent dact = User U_INQUIRE \/ intent dact = User U_ACCEPT)) ->
  inform_or_recommend slots w = (inl TypeError, w).
Proof.
  intros Hnone. unfold inform_or_recommend, bind, read. cbn.
  assert (forall key, focus_subscript key w = (inl TypeError, w)) as Hsub.
  { intros key. unfold focus_subscript, bind, read. cbn. by rewrite Hnone. }
  generalize (last_user_dacts (snapshot w)) as user_dacts.
  generalize (@nil DialogueAct) as acc. intros acc user_dacts. revert acc.
  induction user_dacts as [|user_dact rest IH];
    intros acc (dact & Hin & Hint); [done|].
  cbn [inform_loop].
  destruct (Intent_eqb (intent user_dact) (User U_INQUIRE)) eqn:Hinq.
  { unfold bind at 1. destruct (params user_dact) as [|param ps].
    - cbn. unfold bind. by rewrite Hsub.
    - cbn [inform_params]. unfold bind.
      destruct (negb (slot param =? MORE_INFO)); by rewrite Hsub. }
  destruct (Intent_eqb (intent user_dact) (User U_ACCEPT)) eqn:Hacc.
  { unfold bind. by rewrite Hsub. }
  apply IH. destruct Hin as [<-|Hin]; [|by eauto].
  destruct Hint as [Hi|Hi]; rewrite Hi in *; discriminate.
Qed.

(** X9. When its lookups succeed, [inform_or_recommend] answers with one
    act per INQUIRE or ACCEPT act of the user, and every act of the answer
    is an INFORM or a CONTINUE_RECOMMENDATION act with at least one
    constraint. *)
Theorem inform_or_recommend_shape slots w focus title :
  item_in_focus (snapshot w) = Some focus ->
  dict_get focus TITLE = Some title ->
  (forall user_dact, In user_dact (last_user_dacts (snapshot w)) ->
     intent user_dact = User U_INQUIRE ->
     forall param, In param (params user_dact) ->
                   resolvable focus param = true) ->
  exists agent_dacts,
    result_of (inform_or_recommend slots) w = inr agent_dacts
    /\ length agent_dacts
       = length (List.filter
                   (fun dact =>
                      Intent_eqb (intent dact) (User U_INQUIRE)
                      || Intent_eqb (intent dact) (User U_ACCEPT))
                   (last_user_dacts (snapshot w)))
    /\ forall agent_dact, In agent_dact agent_dacts ->
         params agent_dact <> []
         /\ (intent agent_dact = Agent INFORM
             \/ intent agent_dact = Agent CONTINUE_RECOMMENDATION).
Proof.
  intros Hf Ht Hres. unfold result_of, inform_or_recommend, bind, read. cbn.
  rewrite (inform_loop_run w focus title) by done. cbn.
  eexists. split; [reflexivity|]. clear Hres. split.
  - induction (last_user_dacts (snapshot w)) as [|user_dact rest IH]; [done|].
    cbn [flat_map List.filter]. rewrite length_app, IH. unfold informed.
    destruct (Intent_eqb (intent user_dact) (User U_INQUIRE)); [done|].
    by destruct (Intent_eqb (intent user_dact) (User U_ACCEPT)).
  - intros agent_dact (user_dact & _ & Hin)%in_flat_map. unfold informed in Hin.
    destruct (Intent_eqb (intent user_dact) (User U_INQUIRE)).
    + destruct Hin as [<-|[]]. cbn. split; [|by left].
      by destruct (params user_dact).
    + destruct (Intent_eqb (intent user_dact) (User U_ACCEPT)); [|done].
      destruct Hin as [<-|[]]. cbn. split; [done|by right].
Qed.

(** X10. The lookups of [recommend] that fail: with an offer to make and
    no item in focus, [TypeError]; when the selected item has no title,
    [KeyError] on the title slot. *)
Theorem recommend_lookup_errors slots w :
  (agent_should_make_offer (snapshot w) = true ->
   item_in_focus (snapshot w) = None ->
   result_of (recommend slots) w = inl TypeError)
  /\ (forall focus,
        agent_should_make_offer (snapshot w) = true ->
        item_in_focus (snapshot w) = Some focus ->
        dict_get focus TITLE = None ->
        result_of (recommend slots) w = inl (KeyError TITLE))
  /\ (forall first rest,
        agent_should_make_offer (snapshot w) = false ->
        database_result (snapshot w) = first :: rest ->
        dict_get first TITLE = None ->
        result_of (recommend slots) w = inl (KeyError TITLE)).
Proof.
  unfold result_of, recommend, bind, read, index, subscript. cbn.
  split; [|split].
  - intros -> ->. done.
  - intros focus -> -> Ht. cbn. by rewrite Ht.
  - intros first rest -> -> Ht. cbn. by rewrite Ht.
Qed.

(** X11. [recommend] and [inform_or_recommend] draw nothing from the
    random source and change no list: the world after the call is the world
    before it, and the outcome is the same in any two worlds with the same
    snapshot, whichever list they are handed. *)
Theorem recommend_and_inform_are_pure slots1 slots2 w1 w2 :
  snapshot w1 = snapshot w2 ->
  (world_after (recommend slots1) w1 = w1
   /\ result_of (recommend slots1) w1 = result_of (recommend slots2) w2)
  /\ (world_after (inform_or_recommend slots1) w1 = w1
      /\ result_of (inform_or_recommend slots1) w1
         = result_of (inform_or_recommend slots2) w2).
Proof.
  intros Hs. unfold world_after, result_of. split.
  - rewrite (reads_only_recommend slots1 w1 w2 Hs).
    rewrite (reads_only_recommend slots2 w2 w2 eq_refl). cbn.
    split; [done|]. unfold recommend. done.
  - rewrite (reads_only_inform_or_recommend slots1 w1 w2 Hs).
    rewrite (reads_only_inform_or_recommend slots2 w2 w2 eq_refl). cbn.
    split; [done|]. unfold inform_or_recommend. done.
Qed.

(** ** More on [elicit] *)

Lemma elicit_loop_first_unfilled frame before slot after v agent_dact w :
  (forall slot', In slot' before ->
     exists v', dict_get frame slot' = Some v' /\ truthy v' = true) ->
  dict_get frame slot = Some v ->
  truthy v = false ->
  elicit_loop frame (before ++ slot :: after) agent_dact w
  = (inr {| intent := intent agent_dact;
            params := params agent_dact ++ [constraint_eq slot (VStr "")] |},
     w).
Proof.
  intros Hall Hv Ht. induction before as [|slot' rest IH];
    cbn [elicit_loop app].
  - unfold bind, subscript. rewrite Hv. cbn. by rewrite Ht.
  - destruct (Hall slot') as (v' & Hv' & Ht'); [by left|].
    unfold bind, subscript. rewrite Hv'. cbn. rewrite Ht'. cbn.
    apply IH. intros slot'' Hin. apply Hall. by right.
Qed.

(** X12. Without [agent_req_filled], [elicit] asks for the first slot of
    the shuffled list whose entry in the frame is unfilled; the slots after
    it are not looked up, so they need not be keys of the frame. *)
Theorem elicit_first_unfilled slots w l before slot after v :
  lookup_ref slots w = Some l ->
  threshold_met (snapshot w) = true ->
  agent_req_filled (snapshot w) = false ->
  (shuffle_list l (rng w)).1 = before ++ slot :: after ->
  (forall slot', In slot' before ->
     exists v', dict_get (frame_CIN (snapshot w)) slot' = Some v'
                /\ truthy v' = true) ->
  dict_get (frame_CIN (snapshot w)) slot = Some v ->
  truthy v = false ->
  result_of (elicit slots) w
  = inr [count_results (snapshot w);
         act ELICIT [constraint_eq slot (VStr "")]].
Proof.
  intros Hl Hth Hfilled Hshuf Hbefore Hv Ht.
  rewrite (elicit_not_filled _ _ _ Hl Hth Hfilled), Hshuf.
  by rewrite (elicit_loop_first_unfilled _ _ _ _ v).
Qed.

Lemma swap_same {A} (l : list A) i : swap l i i = l.
Proof.
  unfold swap. destruct (l !! i) as [x|] eqn:Hi; [|done].
  rewrite list_insert_insert_eq. by apply list_insert_id.
Qed.

Lemma swap_length {A} (l : list A) i j : length (swap l i j) = length l.
Proof. apply Permutation_length, swap_Permutation. Qed.

Lemma swap_to_front {A} (l : list A) i x :
  l !! S i = Some x -> swap l (S i) 0 !! 0 = Some x.
Proof.
  intros Hi. unfold swap. rewrite Hi.
  destruct l as [|y l]; [done|]. cbn. done.
Qed.

Lemma shuffle_from_reaches_front {A} i (l : list A) k x :
  k <= i -> i < length l -> l !! k = Some x ->
  exists tape, (shuffle_from i l tape).1 !! 0 = Some x.
Proof.
  revert l k. induction i as [|i IH]; intros l k Hk Hi Hx.
  { exists []. assert (k = 0) as -> by lia. done. }
  destruct (decide (k = S i)) as [->|Hne].
  - destruct (IH (swap l (S i) 0) 0) as [tape Htape].
    + lia.
    + rewrite swap_length. lia.
    + by apply swap_to_front.
    + exists (0 :: tape). cbn [shuffle_from randbelow_tape].
      rewrite Nat.Div0.mod_0_l. done.
  - destruct (IH l k) as [tape Htape]; [lia|lia|done|].
    exists (S i :: tape). cbn [shuffle_from randbelow_tape].
    rewrite Nat.mod_small by lia. by rewrite swap_same.
Qed.

Lemma shuffle_list_reaches_front {A} (l : list A) x :
  In x l -> exists tape, (shuffle_list l tape).1 !! 0 = Some x.
Proof.
  intros [k Hk]%list_elem_of_In%list_elem_of_lookup.
  pose proof (lookup_lt_Some _ _ _ Hk).
  apply (shuffle_from_reaches_front _ _ k); [lia|lia|done].
Qed.

(** X13. With [agent_req_filled], every unfilled non-title slot of the
    frame can be the one [elicit] asks for: some sequence of draws of the
    random source puts it first. *)
Theorem elicit_may_pick_any_open_slot slots s lists slot :
  threshold_met s = true ->
  agent_req_filled s = true ->
  In slot (unfilled_CIN_slots (frame_CIN s)) ->
  exists tape,
    result_of (elicit slots) {| snapshot := s; locals := lists; rng := tape |}
    = inr [count_results s; act ELICIT [constraint_eq slot (VStr "")]].
Proof.
  intros Hth Hfilled Hin.
  destruct (shuffle_list_reaches_front _ _ Hin) as [tape Htape].
  exists tape.
  rewrite (elicit_filled slots {| snapshot := s; locals := lists; rng := tape |})
    by done.
  cbn [snapshot rng].
  destruct (shuffle_list _ tape).1 as [|first others]; [done|].
  by injection Htape as ->.
Qed.

(** X14. Below the threshold [elicit] declines: it returns no act, draws
    nothing from the random source and shuffles nothing, whichever list it
    is handed. *)
Theorem elicit_below_threshold slots w :
  threshold_met (snapshot w) = false ->
  result_of (elicit slots) w = inr []
  /\ rng (world_after (elicit slots) w) = rng w
  /\ snapshot (world_after (elicit slots) w) = snapshot w.
Proof.
  intros Hth. unfold result_of, world_after.
  by rewrite (elicit_declines_run _ _ Hth).
Qed.

Lemma reordered_refl s : reordered s s.
Proof. split; [by destruct s|done]. Qed.

Lemma reordered_trans s1 s2 s3 :
  reordered s1 s2 -> reordered s2 s3 -> reordered s1 s3.
Proof.
  intros [H1 P1] [H2 P2]. split; [|by rewrite P2].
  rewrite H2. rewrite H1 at 1. done.
Qed.

Lemma reorders_only_stable {A} (m : M A) :
  stable 0 m -> reorders_only m.
Proof.
  intros Hm w. destruct (Hm w) as [-> _]. apply reordered_refl.
Qed.

Lemma reorders_only_bind {A B} (m : M A) (k : A -> M B) :
  reorders_only m -> (forall a, reorders_only (k a)) -> reorders_only (bind m k).
Proof.
  intros Hm Hk w. unfold bind. specialize (Hm w).
  destruct (m w) as [[e|a] w']; [done|].
  eapply reordered_trans; [exact Hm|apply Hk].
Qed.

Lemma reorders_only_shuffle slots : reorders_only (shuffle slots).
Proof.
  destruct slots as [|n];
    [|apply reorders_only_stable, stable_shuffle_Local].
  intros w. unfold shuffle, bind, deref, with_rng, assign.
  cbn -[shuffle_list].
  pose proof (shuffle_list_Permutation (agent_requestable (snapshot w)) (rng w))
    as Hperm.
  destruct (shuffle_list (agent_requestable (snapshot w)) (rng w)) as [l' tape'].
  cbn in *. split; [done|]. done.
Qed.

Lemma reorders_only_elicit slots : reorders_only (elicit slots).
Proof.
  unfold elicit.
  repeat first
    [ apply reorders_only_shuffle
    | apply reorders_only_bind; [|intros ?]
    | match goal with
      | |- reorders_only (if ?b then _ else _) => destruct b
      end
    | apply reorders_only_stable, stable_alloc
    | apply reorders_only_stable; stable_tac; apply stable_elicit_loop ].
Qed.

Lemma reorders_only_handler state_name handler slots :
  dict_get possible_actions_per_state state_name = Some handler ->
  reorders_only (handler slots).
Proof.
  intros Hh. apply handler_cases in Hh.
  destruct Hh as [->|[->|[->|[->|[->| ->]]]]].
  - apply reorders_only_elicit.
  - unfold choose_elicit_or_recommend. apply reorders_only_bind.
    + apply reorders_only_elicit.
    + intros [|a acts]; apply reorders_only_stable;
        [apply stable_recommend|apply stable_ret].
  - apply reorders_only_stable, stable_recommend.
  - apply reorders_only_stable, stable_inform_or_recommend.
  - apply reorders_only_stable, stable_ret.
  - apply reorders_only_stable, stable_ret.
Qed.

(** X15. A handler that is handed the snapshot's own list of requestable
    slots, or any other list, changes at most the order of
    [agent_requestable]: no slot is added or lost and no other attribute of
    the snapshot changes, whatever the outcome. *)
Theorem handlers_only_reorder state_name handler slots w :
  dict_get possible_actions_per_state state_name = Some handler ->
  let s := snapshot w in
  let s' := snapshot (world_after (handler slots) w) in
  agent_requestable s' ≡ₚ agent_requestable s
  /\ frame_CIN s' = frame_CIN s
  /\ database_result s' = database_result s
  /\ item_in_focus s' = item_in_focus s
  /\ last_user_dacts s' = last_user_dacts s
  /\ last_agent_dacts s' = last_agent_dacts s
  /\ slot_left_unasked s' = slot_left_unasked s
  /\ agent_req_filled s' = agent_req_filled s
  /\ agent_should_make_offer s' = agent_should_make_offer s
  /\ agent_offer_state s' = agent_offer_state s.
Proof.
  intros Hh s s'.
  destruct (reorders_only_handler _ _ slots Hh w) as [Heq Hperm].
  change (s' = set_agent_requestable (agent_requestable s') s) in Heq.
  change (agent_requestable s' ≡ₚ agent_requestable s) in Hperm.
  split; [done|]. rewrite Heq. done.
Qed.

(** ** More on the example aggregator *)

Ltac cut_off_cases :=
  match goal with
  | |- context [if ?b then _ else _] => destruct b
  end.

Lemma examples_loop_world database_result slot examples w :
  (examples_loop database_result slot examples w).2 = w.
Proof.
  revert examples. induction database_result as [|result rest IH];
    intros examples; cbn [examples_loop]; [done|].
  unfold bind, subscript. destruct (dict_get result slot) as [v|]; [|done].
  cbn. destruct v; try done.
  cut_off_cases; [done|apply IH].
Qed.

Lemma examples_loop_errors database_result slot examples w e :
  (examples_loop database_result slot examples w).1 = inl e ->
  e = KeyError slot \/ e = AttributeError.
Proof.
  revert examples. induction database_result as [|result rest IH];
    intros examples; cbn [examples_loop]; [done|].
  unfold bind, subscript. destruct (dict_get result slot) as [v|].
  - cbn. destruct v; try (intros [= <-]; by right).
    cut_off_cases; [done|apply IH].
  - intros [= <-]. by left.
Qed.

Lemma examples_loop_collects database_result slot examples w collected :
  (examples_loop database_result slot examples w).1 = inr collected ->
  (examples <> [] \/ database_result <> [] -> collected <> [])
  /\ forall x, In x collected ->
       In x examples \/ example_of database_result slot x.
Proof.
  revert examples. induction database_result as [|result rest IH];
    intros examples; cbn [examples_loop].
  { intros [= <-]. split; [by intros [?|?]|auto]. }
  unfold bind, subscript.
  destruct (dict_get result slot) as [v|] eqn:Hv; [|done].
  cbn. destruct v as [| | |s|]; try done.
  set (kept := List.filter _ (map strip (split_commas s))).
  assert (examples ++ map quoted kept <> []) as Hne.
  { destruct examples as [|e examples]; [|done]. cbn. subst kept. cbn.
    pose proof (split_commas_nonempty s). by destruct (split_commas s). }
  assert (forall x, In x (examples ++ map quoted kept) ->
            In x examples \/ example_of (result :: rest) slot x) as Hin.
  { intros x [Hx|Hx]%in_app_iff; [by left|]. right.
    apply in_map_iff in Hx as (y & <- & Hy).
    apply filter_In in Hy as [Hy _].
    apply in_map_iff in Hy as (z & <- & Hz).
    exists result, s, z. repeat split; try done. by left. }
  cut_off_cases.
  - intros [= <-]. done.
  - intros Hrun. destruct (IH _ Hrun) as [Hcne Hmem]. split; [auto|].
    intros x Hx. destruct (Hmem x Hx) as [Hx'|(r & v & y & Hr & Hrest)];
      [by apply Hin|].
    right. exists r, v, y. split; [by right|done].
Qed.

Lemma examples_loop_returns database_result slot examples w :
  (forall result, In result database_result ->
     exists v, dict_get result slot = Some (VStr v)) ->
  exists collected,
    (examples_loop database_result slot examples w).1 = inr collected.
Proof.
  revert examples. induction database_result as [|result rest IH];
    intros examples Hall; cbn [examples_loop]; [by eexists|].
  destruct (Hall result) as [v Hv]; [by left|].
  unfold bind, subscript. rewrite Hv. cbn.
  cut_off_cases; [by eexists|].
  apply IH. intros r Hr. apply Hall. by right.
Qed.

Lemma distinct_In l x : In x (distinct l) <-> In x l.
Proof. apply nodup_In. Qed.

Lemma distinct_nonempty l : l <> [] -> distinct l <> [].
Proof.
  destruct l as [|x l]; [done|]. intros _ Hnil.
  assert (In x (distinct (x :: l))) as Hin by (apply distinct_In; by left).
  by rewrite Hnil in Hin.
Qed.

Lemma distinct_NoDup l : List.NoDup (distinct l).
Proof. apply NoDup_nodup. Qed.

(** What [_generate_examples] does with the examples it has collected. *)
Lemma _generate_examples_tail database_result slot w collected :
  (examples_loop database_result slot [] w).1 = inr collected ->
  collected <> [] ->
  let l := (shuffle_list (distinct collected) (rng w)).1 in
  let tape := (shuffle_list (distinct collected) (rng w)).2 in
  let pool := if (2 <=? length (two_words l))%nat then two_words l else l in
  result_of (_generate_examples database_result slot) w
  = inr (Some (if (length l =? 1)%nat then hd EmptyString l
               else join " or " (sample_pool 2 (length pool) pool tape).1)).
Proof.
  intros Hrun Hne. cbv zeta.
  pose proof (examples_loop_world database_result slot [] w) as Hw.
  pose proof (shuffle_list_Permutation (distinct collected) (rng w)) as Hperm.
  unfold result_of, _generate_examples, bind.
  destruct (examples_loop database_result slot [] w) as [r w']. cbn in Hrun, Hw.
  subst r w'. destruct collected as [|c collected]; [done|].
  unfold alloc, shuffle, bind, deref, with_rng, assign.
  cbn -[shuffle_list distinct sample sample_pool join Nat.leb Nat.eqb List.filter].
  rewrite list_lookup_middle by done.
  cbn -[shuffle_list distinct sample sample_pool join Nat.leb Nat.eqb List.filter].
  destruct (shuffle_list (distinct (c :: collected)) (rng w)) as [l tape].
  cbn -[distinct sample sample_pool join Nat.leb Nat.eqb List.filter] in *.
  rewrite list_lookup_insert_eq by (rewrite length_app; cbn; lia).
  cbn -[distinct sample sample_pool join Nat.leb Nat.eqb List.filter].
  assert (length l <> 0) as Hlen.
  { rewrite (Permutation_length Hperm).
    pose proof (distinct_nonempty (c :: collected) Hne) as Hd.
    by destruct (distinct (c :: collected)). }
  destruct (length l =? 1)%nat eqn:Hone.
  { unfold index. destruct l as [|x l]; [done|]. done. }
  apply Nat.eqb_neq in Hone. fold (two_words l).
  unfold sample.
  destruct (2 <=? length (two_words l))%nat eqn:Htwo.
  - unfold with_rng. cbn -[sample_pool join].
    by destruct (sample_pool 2 _ _ tape).
  - assert ((2 <=? length l)%nat = true) as -> by (apply Nat.leb_le; lia).
    unfold with_rng. cbn -[sample_pool join].
    by destruct (sample_pool 2 _ _ tape).
Qed.

Lemma _generate_examples_raises database_result slot w e :
  (examples_loop database_result slot [] w).1 = inl e ->
  result_of (_generate_examples database_result slot) w = inl e.
Proof.
  intros Hrun. unfold result_of, _generate_examples, bind.
  destruct (examples_loop database_result slot [] w) as [r w']. cbn in Hrun.
  by subst r.
Qed.

Lemma _generate_examples_nothing database_result slot w :
  (examples_loop database_result slot [] w).1 = inr [] ->
  result_of (_generate_examples database_result slot) w = inr None.
Proof.
  intros Hrun. unfold result_of, _generate_examples, bind.
  destruct (examples_loop database_result slot [] w) as [r w']. cbn in Hrun.
  by subst r.
Qed.

Lemma randbelow_tape_lt n tape : 0 < n -> (randbelow_tape n tape).1 < n.
Proof.
  intros Hn. destruct tape as [|x tape]; cbn; [done|].
  by apply Nat.mod_upper_bound, Nat.neq_0_lt_0.
Qed.

(** Two draws from a pool without repetitions are two different members
    of the pool. *)
Lemma sample_pool_two pool tape :
  List.NoDup pool -> 2 <= length pool ->
  exists a b,
    (sample_pool 2 (length pool) pool tape).1 = [a; b]
    /\ a <> b /\ In a pool /\ In b pool.
Proof.
  intros Hnodup%NoDup_ListNoDup Hlen. cbn [sample_pool].
  pose proof (randbelow_tape_lt (length pool) tape) as Hj.
  destruct (randbelow_tape (length pool) tape) as [j tape1]. cbn in Hj.
  pose proof (randbelow_tape_lt (length pool - 1) tape1) as Hj'.
  destruct (randbelow_tape (length pool - 1) tape1) as [j' tape2]. cbn in Hj'.
  destruct (lookup_lt_is_Some_2 pool j) as [a Ha]; [lia|].
  destruct (lookup_lt_is_Some_2 pool (length pool - 1)) as [z Hz]; [lia|].
  destruct (lookup_lt_is_Some_2 pool j') as [b Hb]; [lia|].
  rewrite Ha, Hz. cbn.
  destruct (decide (j = j')) as [<-|Hne].
  - rewrite list_lookup_insert_eq by lia. cbn. exists a, z.
    split; [done|]. split; [|split].
    + intros ->. pose proof (NoDup_lookup _ _ _ _ Hnodup Ha Hz). lia.
    + by apply list_elem_of_In, list_elem_of_lookup_2 with j.
    + by apply list_elem_of_In, list_elem_of_lookup_2 with (length pool - 1).
  - rewrite list_lookup_insert_ne by done. rewrite Hb. cbn. exists a, b.
    split; [done|]. split; [|split].
    + intros ->. by pose proof (NoDup_lookup _ _ _ _ Hnodup Ha Hb).
    + by apply list_elem_of_In, list_elem_of_lookup_2 with j.
    + by apply list_elem_of_In, list_elem_of_lookup_2 with j'.
Qed.

(** X16. [_generate_examples] returns [None] exactly when there is no
    database result. *)
Theorem _generate_examples_None_iff_no_result database_result slot w :
  result_of (_generate_examples database_result slot) w = inr None
  <-> database_result = [].
Proof.
  split; [|by intros ->].
  intros Hres. destruct database_result as [|result rest]; [done|]. exfalso.
  destruct (examples_loop (result :: rest) slot [] w).1 as [e|collected] eqn:Hrun.
  - rewrite (_generate_examples_raises _ _ _ _ Hrun) in Hres. discriminate.
  - destruct (examples_loop_collects _ _ _ _ _ Hrun) as [Hne _].
    rewrite (_generate_examples_tail _ _ _ _ Hrun) in Hres by auto.
    discriminate.
Qed.

(** X17. When every database result has a string under the slot and there
    is at least one result, [_generate_examples] returns a string. *)
Theorem _generate_examples_returns database_result slot w :
  database_result <> [] ->
  (forall result, In result database_result ->
     exists v, dict_get result slot = Some (VStr v)) ->
  exists s, result_of (_generate_examples database_result slot) w = inr (Some s).
Proof.
  intros Hne Hall.
  destruct (examples_loop_returns database_result slot [] w Hall)
    as [collected Hrun].
  destruct (examples_loop_collects _ _ _ _ _ Hrun) as [Hcne _].
  rewrite (_generate_examples_tail _ _ _ _ Hrun) by auto. eauto.
Qed.

(** X18. The only exceptions of [_generate_examples] come from
    [result[slot].split]: [KeyError] for a result without the slot,
    [AttributeError] for a value that is not a string. The draws
    ([random.sample]) and the indexing never fail. *)
Theorem _generate_examples_errors database_result slot w e :
  result_of (_generate_examples database_result slot) w = inl e ->
  e = KeyError slot \/ e = AttributeError.
Proof.
  intros Hres.
  destruct (examples_loop database_result slot [] w).1 as [e'|collected] eqn:Hrun.
  - rewrite (_generate_examples_raises _ _ _ _ Hrun) in Hres.
    injection Hres as <-. by apply examples_loop_errors in Hrun.
  - destruct collected as [|c collected].
    + rewrite (_generate_examples_nothing _ _ _ Hrun) in Hres. discriminate.
    + rewrite (_generate_examples_tail _ _ _ _ Hrun) in Hres by done.
      discriminate.
Qed.

(** X19. A string returned by [_generate_examples] is one fragment of the
    slot's values, stripped and quoted, or two different such fragments
    joined by [" or "]. *)
Theorem _generate_examples_answer database_result slot w s :
  result_of (_generate_examples database_result slot) w = inr (Some s) ->
  example_of database_result slot s
  \/ exists a b,
       s = (a ++ " or " ++ b)%string /\ a <> b
       /\ example_of database_result slot a
       /\ example_of database_result slot b.
Proof.
  intros Hres.
  destruct (examples_loop database_result slot [] w).1 as [e|collected] eqn:Hrun.
  { rewrite (_generate_examples_raises _ _ _ _ Hrun) in Hres. discriminate. }
  destruct (examples_loop_collects _ _ _ _ _ Hrun) as [_ Hmem].
  destruct collected as [|c collected].
  { rewrite (_generate_examples_nothing _ _ _ Hrun) in Hres. discriminate. }
  rewrite (_generate_examples_tail _ _ _ _ Hrun) in Hres by done.
  cbv zeta in Hres.
  pose proof (shuffle_list_Permutation (distinct (c :: collected)) (rng w))
    as Hperm.
  destruct (shuffle_list (distinct (c :: collected)) (rng w)) as [l tape].
  cbn [fst snd] in *.
  assert (forall x, In x l -> example_of database_result slot x) as Hex.
  { intros x Hx. apply list_elem_of_In in Hx. rewrite Hperm in Hx.
    apply (proj1 (list_elem_of_In _ _)) in Hx.
    apply (proj1 (distinct_In _ _)) in Hx.
    by destruct (Hmem x Hx). }
  assert (List.NoDup l) as Hnodup.
  { eapply Permutation_NoDup; [symmetry; exact Hperm|apply distinct_NoDup]. }
  destruct (length l =? 1)%nat eqn:Hone.
  { left. injection Hres as <-. destruct l as [|x l]; [done|].
    apply Hex. by left. }
  right. apply Nat.eqb_neq in Hone.
  assert (length l <> 0) as Hlen.
  { rewrite (Permutation_length Hperm).
    pose proof (distinct_nonempty (c :: collected)) as Hd.
    destruct (distinct (c :: collected)); [by destruct Hd|done]. }
  set (pool := if (2 <=? length (two_words l))%nat then two_words l else l)
    in Hres.
  assert (List.NoDup pool /\ 2 <= length pool
          /\ forall x, In x pool -> In x l) as (Hpn & Hpl & Hpin).
  { subst pool. destruct (2 <=? length (two_words l))%nat eqn:Htwo.
    - apply Nat.leb_le in Htwo. split; [by apply List.NoDup_filter|].
      split; [done|]. intros x Hx. by apply filter_In in Hx as [? _].
    - split; [done|]. split; [lia|done]. }
  destruct (sample_pool_two pool tape Hpn Hpl) as (a & b & Hab & Hne & Ha & Hb).
  rewrite Hab in Hres. injection Hres as <-.
  exists a, b. repeat split; auto.
Qed.

Lemma examples_loop_cut_off results more slot examples w collected :
  results <> [] ->
  (examples_loop results slot examples w).1 = inr collected ->
  20 < length (distinct collected) ->
  examples_loop (results ++ more) slot examples w
  = examples_loop results slot examples w.
Proof.
  revert examples. induction results as [|result rest IH];
    intros examples Hne Hrun Hmany; [done|].
  cbn [examples_loop app] in *. unfold bind, subscript in *.
  destruct (dict_get result slot) as [v|]; [|done].
  cbn -[Nat.ltb distinct] in *.
  destruct v as [| | |s|]; try done.
  set (examples' := examples ++ _) in *.
  destruct (20 <? length (distinct examples'))%nat eqn:Hcut; [done|].
  destruct rest as [|result' rest].
  - cbn in Hrun. injection Hrun as <-. apply Nat.ltb_ge in Hcut. lia.
  - by apply (IH examples').
Qed.

(** X20. The cut-off: once the results read so far have given more than
    20 distinct examples, the results after them are not read at all, so
    the outcome is the same with or without them. *)
Theorem _generate_examples_cut_off results more slot w collected :
  (examples_loop results slot [] w).1 = inr collected ->
  20 < length (distinct collected) ->
  _generate_examples (results ++ more) slot w
  = _generate_examples results slot w.
Proof.
  intros Hrun Hmany. unfold _generate_examples, bind.
  destruct results as [|result rest].
  { cbn in Hrun. injection Hrun as <-. cbn in Hmany. lia. }
  by rewrite (examples_loop_cut_off _ more _ _ _ collected).
Qed.

End PolicyFrame.

(** ** The properties at work on sample snapshots *)

#[local] Existing Instance moviebot_slots.

(** The model sees a shuffle through an alias: handing the snapshot's own
    list to [elicit] reorders [agent_requestable]. *)
Lemma elicit_shuffles_the_list_it_is_given :
  agent_requestable
    (snapshot (world_after (elicit Requestable) (world_of mid_conversation [0])))
  = ["keywords"; "genres"].
Proof. reflexivity. Qed.

Lemma next_action_restart_witness :
  result_of (next_action policy true) (world_of mid_conversation [1; 0])
  = inr [act RESTART []; act ELICIT [constraint_eq "genres" (VStr "")]].
Proof.
  apply (next_action_restart policy true (world_of mid_conversation [1; 0])
           "genres" ["keywords"]).
  - reflexivity.
  - left. reflexivity.
Defined.

Lemma next_action_welcome_witness :
  result_of (next_action policy false) (world_of greeting [1; 0])
  = inr [act WELCOME [constraint_eq "new_user" (VBool false);
                      constraint_eq "is_bot" (VBool true)]].
Proof.
  apply (next_action_welcome policy (world_of greeting [1; 0])).
  - intros dact [<-|[]]. discriminate.
  - right. left. reflexivity.
Defined.

Lemma next_action_pre_dispatch_deterministic_witness :
  result_of (next_action policy false) (world_of greeting [1; 0])
  = result_of (next_action policy false)
      {| snapshot := greeting; locals := [["year"]]; rng := [7] |}
  /\ rng (world_after (next_action policy false) (world_of greeting [1; 0]))
     = [1; 0]
  /\ rng (world_after (next_action policy false)
            {| snapshot := greeting; locals := [["year"]]; rng := [7] |})
     = [7].
Proof.
  apply (next_action_pre_dispatch_deterministic policy false
           (world_of greeting [1; 0])
           {| snapshot := greeting; locals := [["year"]]; rng := [7] |}).
  - reflexivity.
  - reflexivity.
Defined.

(** With every requestable slot filled, the handler still adds an ELICIT
    act: one without any constraint. *)
Lemma elicit_adds_ELICIT_without_slot :
  threshold_met all_requested = true
  /\ agent_req_filled all_requested = false
  /\ no_requestable_unfilled all_requested = true
  /\ result_of (elicit (Local 0)) (handler_world all_requested [1; 0])
     = inr [count_results all_requested; act ELICIT []]
  /\ result_of (elicit (Local 0)) (handler_world all_requested [1; 0])
     <> inr [count_results all_requested].
Proof. repeat split; try reflexivity. discriminate. Qed.

(** Why [elicit_threshold] asks for an unfilled slot under
    [agent_req_filled]: with none, [CIN_slots[0]] is out of range. *)
Lemma elicit_without_open_slot_raises :
  threshold_met nothing_open = true
  /\ result_of (elicit (Local 0)) (handler_world nothing_open [1; 0])
     = inl IndexError.
Proof. split; reflexivity. Qed.

Lemma elicit_threshold_witness :
  (exists slot,
     In slot ["keywords"; "year"]
     /\ result_of (elicit (Local 0)) (handler_world enough_filled [1; 0])
        = inr [count_results enough_filled;
               act ELICIT [constraint_eq slot (VStr "")]])
  /\ (exists ps,
        result_of (elicit (Local 0)) (handler_world mid_conversation [1; 0])
        = inr [count_results mid_conversation; act ELICIT ps]
        /\ (ps = []
            \/ exists slot v,
                 In slot ["genres"; "keywords"]
                 /\ dict_get (frame_CIN mid_conversation) slot = Some v
                 /\ truthy v = false
                 /\ ps = [constraint_eq slot (VStr "")]))
  /\ result_of (elicit (Local 0)) (handler_world all_requested [1; 0])
     = inr [count_results all_requested; act ELICIT []].
Proof.
  split; [|split].
  - destruct (elicit_threshold (Local 0) (handler_world enough_filled [1; 0])
                ["genres"; "keywords"]) as (Hfilled & _ & _);
      [reflexivity|reflexivity|].
    apply Hfilled; [reflexivity|discriminate].
  - destruct (elicit_threshold (Local 0) (handler_world mid_conversation [1; 0])
                ["genres"; "keywords"]) as (_ & Hopen & _);
      [reflexivity|reflexivity|].
    apply Hopen; [reflexivity|].
    intros slot [<-|[<-|[]]]; reflexivity.
  - destruct (elicit_threshold (Local 0) (handler_world all_requested [1; 0])
                ["genres"; "keywords"]) as (_ & _ & Hnone);
      [reflexivity|reflexivity|].
    apply Hnone; [reflexivity|].
    intros slot [<-|[<-|[]]]; eexists; split; reflexivity.
Defined.

Lemma elicit_KeyError_iff_slot_missing_witness :
  ((forall key,
      result_of (elicit (Local 0)) (handler_world mid_conversation [1; 0])
      <> inl (KeyError key))
   /\ exists agent_dacts,
        result_of (elicit (Local 0)) (handler_world mid_conversation [1; 0])
        = inr agent_dacts)
  /\ result_of (elicit (Local 0)) (handler_world missing_keywords [1; 0])
     = inl (KeyError "keywords").
Proof.
  destruct elicit_KeyError_iff_slot_missing as (Hsafe & Hraise & _).
  split.
  - destruct (Hsafe (Local 0) (handler_world mid_conversation [1; 0])
                ["genres"; "keywords"]) as [Hno Hret].
    + reflexivity.
    + intros slot [<-|[<-|[]]]; reflexivity.
    + split; [exact Hno|]. apply Hret. reflexivity.
  - apply (Hraise (Local 0) (handler_world missing_keywords [1; 0])
             ["keywords"] [] "keywords" []); try reflexivity.
    intros slot' [].
Defined.

(** With no result and no offer to make, the error that [recommend] raises
    is the built-in [IndexError] of the list access. *)
Lemma recommend_without_results_is_IndexError :
  database_result partial_offer_no_results = []
  /\ agent_should_make_offer partial_offer_no_results = false
  /\ result_of (recommend (Local 0)) (handler_world partial_offer_no_results [1; 0])
     = inl IndexError
  /\ ~ state_inconsistency_error IndexError.
Proof. repeat split; try reflexivity. intros []. Qed.

Lemma recommend_outcome_witness :
  result_of (recommend (Local 0)) (handler_world partial_offer_no_results [1; 0])
  = inl IndexError
  /\ result_of (recommend (Local 0)) (handler_world offer_heat [1; 0])
     = inr [act RECOMMEND [constraint_eq "title" (VStr "Heat")]]
  /\ result_of (recommend (Local 0)) (handler_world partial_offer [1; 0])
     = inr [act RECOMMEND [constraint_eq "title" (VStr "Ran")]].
Proof.
  split; [|split].
  - destruct (recommend_outcome (Local 0)
                (handler_world partial_offer_no_results [1; 0]))
      as (Hnone & _ & _).
    apply Hnone; reflexivity.
  - destruct (recommend_outcome (Local 0) (handler_world offer_heat [1; 0]))
      as (_ & Hfocus & _).
    apply (Hfocus heat); reflexivity.
  - destruct (recommend_outcome (Local 0) (handler_world partial_offer [1; 0]))
      as (_ & _ & Hfirst).
    apply (Hfirst ran [heat]); reflexivity.
Defined.

(** A requested slot that the item in focus lacks does not give the
    [deny] default: the handler raises [KeyError]. *)
Lemma inform_or_recommend_missing_slot_raises :
  item_in_focus asked_about_director = Some heat
  /\ dict_get heat "director" = None
  /\ result_of (inform_or_recommend (Local 0))
       (handler_world asked_about_director [1; 0])
     = inl (KeyError "director").
Proof. repeat split. Qed.

Lemma inform_or_recommend_answers_witness :
  result_of (inform_or_recommend (Local 0)) (handler_world asked_about_heat [1; 0])
  = inr [act INFORM [constraint_eq "genres" (VStr "Crime, Drama");
                     constraint_eq "more_info" (VStr "Heat")];
         act INFORM [constraint_eq "deny" (VStr "Heat")];
         act CONTINUE_RECOMMENDATION [constraint_eq "title" (VStr "Heat")]]
  /\ result_of (inform_or_recommend (Local 0))
       (handler_world revealed_then_asked_director [1; 0])
     = inl (KeyError "director")
  /\ exists user_dact' param',
       In user_dact' (last_user_dacts revealed_then_asked_director)
       /\ intent user_dact' = User U_INQUIRE
       /\ In param' (params user_dact')
       /\ resolvable heat param' = false
       /\ result_of (inform_or_recommend (Local 0))
            (handler_world revealed_then_asked_director [1; 0])
          = inl (KeyError (slot param')).
Proof.
  split; [|split].
  - destruct (inform_or_recommend_answers (Local 0)
                (handler_world asked_about_heat [1; 0]) heat (VStr "Heat"))
      as (Hanswers & _ & _); [reflexivity|reflexivity|].
    apply Hanswers.
    intros user_dact [<-|[<-|[<-|[]]]]; try discriminate.
    + intros _ param [<-|[<-|[]]]; reflexivity.
    + intros _ param [].
  - destruct (inform_or_recommend_answers (Local 0)
                (handler_world revealed_then_asked_director [1; 0]) heat
                (VStr "Heat"))
      as (_ & Hraise & _); [reflexivity|reflexivity|].
    apply (Hraise [reveal_genre]
             (user_act U_INQUIRE
                [{| slot := "director"; op := EQ; cvalue := VStr "" |}])
             [] [] {| slot := "director"; op := EQ; cvalue := VStr "" |} []);
      try reflexivity.
    + intros earlier_dact [<-|[]]. discriminate.
    + intros p [].
  - destruct (inform_or_recommend_answers (Local 0)
                (handler_world revealed_then_asked_director [1; 0]) heat
                (VStr "Heat"))
      as (_ & _ & Hany); [reflexivity|reflexivity|].
    apply (Hany
             (user_act U_INQUIRE
                [{| slot := "director"; op := EQ; cvalue := VStr "" |}])
             {| slot := "director"; op := EQ; cvalue := VStr "" |}).
    + right. left. reflexivity.
    + reflexivity.
    + left. reflexivity.
    + reflexivity.
Defined.

(** The single fragment comes back in quotes, not as it was. *)
Lemma _generate_examples_quotes_the_fragment :
  only_fragment dramas "genres" "Drama"
  /\ result_of (_generate_examples dramas "genres") (world_of mid_conversation [1; 0])
     = inr (Some "'Drama'")
  /\ result_of (_generate_examples dramas "genres") (world_of mid_conversation [1; 0])
     <> inr (Some "Drama").
Proof.
  split; [|split; [reflexivity|discriminate]].
  intros result [<-|[<-|[]]]; eexists; (split; [reflexivity|]).
  - intros x [<-|[<-|[]]]; reflexivity.
  - intros x [<-|[]]; reflexivity.
Qed.

Lemma _generate_examples_single_witness :
  result_of (_generate_examples dramas "genres") (world_of mid_conversation [1; 0])
  = inr (Some "'Drama'")
  /\ rng (world_after (_generate_examples dramas "genres")
            (world_of mid_conversation [1; 0]))
     = [1; 0].
Proof.
  apply (_generate_examples_single dramas "genres" "Drama"
           (world_of mid_conversation [1; 0])).
  - discriminate.
  - intros result [<-|[<-|[]]]; eexists; (split; [reflexivity|]).
    + intros x [<-|[<-|[]]]; reflexivity.
    + intros x [<-|[]]; reflexivity.
Defined.

Lemma next_action_total_witness :
  (exists agent_dacts,
     result_of (next_action policy false) (world_of mid_conversation [1; 0])
     = inr agent_dacts
     /\ agent_dacts <> [])
  /\ result_of (next_action policy false) (world_of nothing_to_ask [1; 0])
     = inr [act CANT_HELP []]
  /\ dispatch ["agent_req_filled"; "agent_made_offer"] (Local 0)
       (handler_world nothing_to_ask [1; 0])
     = dispatch ["agent_made_offer"] (Local 0)
         (world_after (elicit (Local 0)) (handler_world nothing_to_ask [1; 0])).
Proof.
  destruct next_action_total as (Htotal & Hfallback & Hcontinue).
  split; [|split].
  - apply Htotal. reflexivity.
  - apply Hfallback; [reflexivity|].
    intros state_name handler [<-|[<-|[]]] Hh slots w' Hsnap.
    + injection Hh as <-. apply elicit_declines. rewrite Hsnap. reflexivity.
    + discriminate.
  - apply (Hcontinue "agent_req_filled" elicit); reflexivity.
Defined.

(** ** The further properties at work on sample snapshots *)

Lemma next_action_acknowledge_witness :
  result_of (next_action policy false) (world_of acknowledged [1; 0])
  = inr [act ELICIT [constraint_eq "genres" (VStr "")]].
Proof.
  apply (next_action_acknowledge policy (world_of acknowledged [1; 0])
           "genres" ["keywords"]).
  - reflexivity.
  - intros dact [<-|[]]. discriminate.
  - exists (user_act U_ACKNOWLEDGE []). split; [left; reflexivity|].
    left. reflexivity.
  - exists welcome_act. split; [left; reflexivity|reflexivity].
Defined.

Lemma next_action_without_slots_witness :
  result_of (next_action policy false) (world_of acknowledged_no_slots [1; 0])
  = inl IndexError
  /\ snapshot (world_after (next_action policy false)
                 (world_of acknowledged_no_slots [1; 0]))
     = acknowledged_no_slots.
Proof.
  apply (next_action_without_slots policy false
           (world_of acknowledged_no_slots [1; 0])).
  - reflexivity.
  - right. split; reflexivity.
Defined.

Lemma next_action_never_empty_witness :
  result_of (next_action policy false) (world_of mid_conversation [1; 0])
  = inr [count_results mid_conversation;
         act ELICIT [constraint_eq "keywords" (VStr "")]]
  /\ [count_results mid_conversation;
      act ELICIT [constraint_eq "keywords" (VStr "")]] <> [].
Proof.
  split; [reflexivity|].
  apply (next_action_never_empty policy false (world_of mid_conversation [1; 0])).
  reflexivity.
Defined.

Lemma dispatch_first_answer_witness :
  dispatch ["agent_can_lookup"; "agent_req_filled"; "at_terminal_state";
            "agent_made_offer"]
    (Local 0) (handler_world nothing_to_ask [1; 0])
  = (inr [act BYE []],
     world_after (elicit (Local 0)) (handler_world nothing_to_ask [1; 0]))
  /\ dispatch ["agent_req_filled"; "agent_can_lookup"; "agent_should_make_offer";
               "at_terminal_state"]
       (Local 0) (handler_world partial_offer_no_results [1; 0])
     = (inl IndexError,
        world_after (elicit (Local 0)) (handler_world partial_offer_no_results [1; 0])).
Proof.
  split.
  - destruct (dispatch_first_answer ["agent_can_lookup"; "agent_req_filled"]
                "at_terminal_state" ["agent_made_offer"] finish (Local 0)
                (handler_world nothing_to_ask [1; 0])
                (world_after (elicit (Local 0))
                   (handler_world nothing_to_ask [1; 0])))
      as (Hanswer & _ & _).
    + apply declined_unknown; [reflexivity|].
      apply (declined_known "agent_req_filled" elicit) with
        (w1 := world_after (elicit (Local 0))
                 (handler_world nothing_to_ask [1; 0]));
        [reflexivity|reflexivity|].
      apply declined_nil.
    + reflexivity.
    + apply Hanswer; [reflexivity|discriminate].
  - destruct (dispatch_first_answer ["agent_req_filled"; "agent_can_lookup"]
                "agent_should_make_offer" ["at_terminal_state"] recommend
                (Local 0) (handler_world partial_offer_no_results [1; 0])
                (world_after (elicit (Local 0))
                   (handler_world partial_offer_no_results [1; 0])))
      as (_ & Hraise & _).
    + apply (declined_known "agent_req_filled" elicit) with
        (w1 := world_after (elicit (Local 0))
                 (handler_world partial_offer_no_results [1; 0]));
        [reflexivity|reflexivity|].
      apply declined_unknown; [reflexivity|]. apply declined_nil.
    + reflexivity.
    + apply Hraise. reflexivity.
Defined.

Lemma next_action_no_results_or_bye_witness :
  result_of (next_action policy false) (world_of no_results_found [1; 0])
  = inr [act NO_RESULTS []]
  /\ result_of (next_action policy false) (world_of terminal [1; 0])
     = inr [act BYE []].
Proof.
  split.
  - destruct (next_action_no_results_or_bye policy
                (world_of no_results_found [1; 0]) [] ["agent_req_filled"])
      as [Hnone _].
    + reflexivity.
    + intros name [].
    + apply Hnone. reflexivity.
  - destruct (next_action_no_results_or_bye policy
                (world_of terminal [1; 0]) ["agent_can_lookup"]
                ["agent_req_filled"]) as [_ Hbye].
    + reflexivity.
    + intros name [<-|[]]. reflexivity.
    + apply Hbye. reflexivity.
Defined.

Lemma choose_elicit_or_recommend_cases_witness :
  result_of (choose_elicit_or_recommend (Local 0)) (handler_world enough_filled [1; 0])
  = result_of (elicit (Local 0)) (handler_world enough_filled [1; 0])
  /\ result_of (choose_elicit_or_recommend (Local 0))
       (handler_world partial_offer [1; 0])
     = result_of (recommend (Local 0)) (handler_world partial_offer [1; 0]).
Proof.
  split.
  - destruct (choose_elicit_or_recommend_cases (Local 0)
                (handler_world enough_filled [1; 0]) ["genres"; "keywords"])
      as [Hmet _]; [reflexivity|].
    apply Hmet. reflexivity.
  - destruct (choose_elicit_or_recommend_cases (Local 0)
                (handler_world partial_offer [1; 0]) ["genres"; "keywords"])
      as [_ Hbelow]; [reflexivity|].
    apply Hbelow. reflexivity.
Defined.

Lemma inform_or_recommend_ignores_other_intents_witness :
  inform_or_recommend (Local 0) (handler_world mid_conversation [1; 0])
  = (inr [], handler_world mid_conversation [1; 0]).
Proof.
  apply (inform_or_recommend_ignores_other_intents (Local 0)
           (handler_world mid_conversation [1; 0])).
  intros dact [<-|[]]. split; discriminate.
Defined.

Lemma inform_or_recommend_without_focus_witness :
  inform_or_recommend (Local 0) (handler_world inquiry_without_focus [1; 0])
  = (inl TypeError, handler_world inquiry_without_focus [1; 0]).
Proof.
  apply (inform_or_recommend_without_focus (Local 0)
           (handler_world inquiry_without_focus [1; 0])).
  - reflexivity.
  - exists (user_act U_INQUIRE []). split; [right; left; reflexivity|].
    left. reflexivity.
Defined.

Lemma inform_or_recommend_shape_witness :
  exists agent_dacts,
    result_of (inform_or_recommend (Local 0)) (handler_world asked_about_heat [1; 0])
    = inr agent_dacts
    /\ length agent_dacts = 3
    /\ forall agent_dact, In agent_dact agent_dacts ->
         params agent_dact <> []
         /\ (intent agent_dact = Agent INFORM
             \/ intent agent_dact = Agent CONTINUE_RECOMMENDATION).
Proof.
  apply (inform_or_recommend_shape (Local 0)
           (handler_world asked_about_heat [1; 0]) heat (VStr "Heat")).
  - reflexivity.
  - reflexivity.
  - intros user_dact [<-|[<-|[<-|[]]]]; try discriminate.
    + intros _ param [<-|[<-|[]]]; reflexivity.
    + intros _ param [].
Defined.

Lemma recommend_lookup_errors_witness :
  result_of (recommend (Local 0)) (handler_world offer_without_focus [1; 0])
  = inl TypeError
  /\ result_of (recommend (Local 0)) (handler_world offer_untitled [1; 0])
     = inl (KeyError "title")
  /\ result_of (recommend (Local 0)) (handler_world results_untitled [1; 0])
     = inl (KeyError "title").
Proof.
  split; [|split].
  - destruct (recommend_lookup_errors (Local 0)
                (handler_world offer_without_focus [1; 0])) as (Hnone & _ & _).
    apply Hnone; reflexivity.
  - destruct (recommend_lookup_errors (Local 0)
                (handler_world offer_untitled [1; 0])) as (_ & Hfocus & _).
    apply (Hfocus untitled); reflexivity.
  - destruct (recommend_lookup_errors (Local 0)
                (handler_world results_untitled [1; 0])) as (_ & _ & Hfirst).
    apply (Hfirst untitled [heat]); reflexivity.
Defined.

Lemma recommend_and_inform_are_pure_witness :
  (world_after (recommend (Local 0)) (handler_world offer_heat [1; 0])
   = handler_world offer_heat [1; 0]
   /\ result_of (recommend (Local 0)) (handler_world offer_heat [1; 0])
      = result_of (recommend Requestable) (world_of offer_heat [7]))
  /\ (world_after (inform_or_recommend (Local 0)) (handler_world offer_heat [1; 0])
      = handler_world offer_heat [1; 0]
      /\ result_of (inform_or_recommend (Local 0)) (handler_world offer_heat [1; 0])
         = result_of (inform_or_recommend Requestable) (world_of offer_heat [7])).
Proof.
  apply (recommend_and_inform_are_pure (Local 0) Requestable
           (handler_world offer_heat [1; 0]) (world_of offer_heat [7])).
  reflexivity.
Defined.

Lemma elicit_first_unfilled_witness :
  result_of (elicit (Local 0)) (handler_world mid_conversation [1; 0])
  = inr [count_results mid_conversation;
         act ELICIT [constraint_eq "keywords" (VStr "")]].
Proof.
  apply (elicit_first_unfilled (Local 0) (handler_world mid_conversation [1; 0])
           ["genres"; "keywords"] ["genres"] "keywords" [] VNone);
    try reflexivity.
  intros slot' [<-|[]]. exists (VStr "drama"). split; reflexivity.
Defined.

Lemma elicit_may_pick_any_open_slot_witness :
  exists tape,
    result_of (elicit (Local 0))
      {| snapshot := enough_filled;
         locals := [agent_requestable enough_filled]; rng := tape |}
    = inr [count_results enough_filled;
           act ELICIT [constraint_eq "year" (VStr "")]].
Proof.
  apply (elicit_may_pick_any_open_slot (Local 0) enough_filled
           [agent_requestable enough_filled] "year").
  - reflexivity.
  - reflexivity.
  - right. left. reflexivity.
Defined.

Lemma elicit_below_threshold_witness :
  result_of (elicit Requestable) (world_of nothing_to_ask [1; 0]) = inr []
  /\ rng (world_after (elicit Requestable) (world_of nothing_to_ask [1; 0]))
     = [1; 0]
  /\ snapshot (world_after (elicit Requestable) (world_of nothing_to_ask [1; 0]))
     = nothing_to_ask.
Proof.
  apply (elicit_below_threshold Requestable (world_of nothing_to_ask [1; 0])).
  reflexivity.
Defined.

Lemma handlers_only_reorder_witness :
  agent_requestable
    (snapshot (world_after (elicit Requestable) (world_of mid_conversation [0])))
  ≡ₚ ["genres"; "keywords"]
  /\ frame_CIN
       (snapshot (world_after (elicit Requestable) (world_of mid_conversation [0])))
     = frame_CIN mid_conversation.
Proof.
  destruct (handlers_only_reorder "agent_req_filled" elicit Requestable
              (world_of mid_conversation [0]) eq_refl)
    as (Hperm & Hframe & _).
  split; [exact Hperm|exact Hframe].
Defined.

Lemma _generate_examples_returns_witness :
  exists s,
    result_of (_generate_examples [heat; ran] "genres") (world_of mid_conversation [1; 0])
    = inr (Some s).
Proof.
  apply (_generate_examples_returns [heat; ran] "genres"
           (world_of mid_conversation [1; 0])).
  - discriminate.
  - intros result [<-|[<-|[]]]; eexists; reflexivity.
Defined.

Lemma _generate_examples_errors_witness :
  result_of (_generate_examples [ran; [("title", VStr "Ikiru")]] "genres")
    (world_of mid_conversation [1; 0])
  = inl (KeyError "genres")
  /\ (KeyError "genres" = KeyError "genres"
      \/ KeyError "genres" = AttributeError).
Proof.
  split; [reflexivity|].
  apply (_generate_examples_errors [ran; [("title", VStr "Ikiru")]] "genres"
           (world_of mid_conversation [1; 0]) (KeyError "genres")).
  reflexivity.
Defined.

Lemma _generate_examples_answer_witness :
  example_of [heat] "genres" "'Crime' or 'Drama'"
  \/ exists a b,
       "'Crime' or 'Drama'" = (a ++ " or " ++ b)%string /\ a <> b
       /\ example_of [heat] "genres" a
       /\ example_of [heat] "genres" b.
Proof.
  apply (_generate_examples_answer [heat] "genres"
           (world_of mid_conversation [1; 0])).
  reflexivity.
Defined.

Lemma _generate_examples_cut_off_witness :
  _generate_examples ([many_genres] ++ [untitled; [("title", VStr "Ikiru")]])
    "genres" (world_of mid_conversation [1; 0])
  = _generate_examples [many_genres] "genres" (world_of mid_conversation [1; 0]).
Proof.
  apply (_generate_examples_cut_off [many_genres]
           [untitled; [("title", VStr "Ikiru")]] "genres"
           (world_of mid_conversation [1; 0])
           (map quoted
              ["g01"; "g02"; "g03"; "g04"; "g05"; "g06"; "g07"; "g08"; "g09";
               "g10"; "g11"; "g12"; "g13"; "g14"; "g15"; "g16"; "g17"; "g18";
               "g19"; "g20"; "g21"])).
  - reflexivity.
  - vm_compute. lia.
Defined.
